(** * bitbucket-sunset: permission expansion and idempotent apply

    A shallow embedding of [utils.py], [expand_groups.py],
    [apply_github_permissions.py] and the paging loop of [bitbucket.py],
    with the properties of the permission merge, of the
    read-compare-write loop and of the paging.

    Conventions.
    - A Python [str] is a [string]; [str.strip] and [str.lower] are given
      on the 7-bit range.
    - A CSV row ([Dict[str, str]] in the source's annotations) is a
      [gmap string string]; [row.get(k)] is [row !! k].
    - [logger.<level>(fmt, args...)] appends a [LogRecord] to an explicit
      log, threaded through the loops in program order.
    - Python dictionaries used as maps ([effective], [members_by_group],
      [by_repo], [email_to_login]) are [gmap]s.  Wherever the source
      iterates over such a dictionary it sorts by key first, so insertion
      order is never observable. *)

From Stdlib Require Import Ascii String.
From stdpp Require Import gmap strings list fin_maps sorting.

Local Open Scope string_scope.
Local Open Scope list_scope.

Abbreviation Row := (gmap string string).

(** ** Python runtime pieces used by the sources *)

Module Py.

(** Truthiness of a [str]: only the empty string is falsy. *)
Definition truthy (s : string) : bool :=
  match s with
  | EmptyString => false
  | String _ _ => true
  end.

(** [v or d] for [v : Optional[str]]. *)
Definition or_else (v : option string) (d : string) : string :=
  match v with
  | Some s => if truthy s then s else d
  | None => d
  end.

(** [v] when [if v:] passes, for [v : Optional[str]]. *)
Definition nonempty (v : option string) : option string :=
  match v with
  | Some s => if truthy s then Some s else None
  | None => None
  end.

(** [d.get(k, dflt)]. *)
Definition get_default (row : Row) (k dflt : string) : string :=
  default dflt (row !! k).
Global Arguments get_default : simpl never.

(** Whitespace as [str.strip()] sees it below U+0080:
    TAB, LF, VT, FF, CR, FS, GS, RS, US and SPACE. *)
Definition is_space (c : ascii) : bool :=
  let n := nat_of_ascii c in
  (((9 <=? n) && (n <=? 13)) || ((28 <=? n) && (n <=? 32)))%nat.

Fixpoint lstrip (s : string) : string :=
  match s with
  | EmptyString => EmptyString
  | String c s' => if is_space c then lstrip s' else s
  end.

Definition strip (s : string) : string :=
  String.rev (lstrip (String.rev (lstrip s))).

Definition lower_ascii (c : ascii) : ascii :=
  let n := nat_of_ascii c in
  if ((65 <=? n) && (n <=? 90))%nat then ascii_of_nat (n + 32) else c.

Fixpoint lower (s : string) : string :=
  match s with
  | EmptyString => EmptyString
  | String c s' => String (lower_ascii c) (lower s')
  end.

(** [list.index]: [None] stands for the [ValueError]. *)
Fixpoint index (p : string) (l : list string) : option nat :=
  match l with
  | [] => None
  | x :: l' => if decide (x = p) then Some 0 else S <$> index p l'
  end.

End Py.

(** ** Logging *)

Inductive Level := INFO | WARNING | ERROR.

Inductive Arg :=
| AStr (s : string)
| ANat (n : nat)
| ARow (r : Row).

Record LogRecord := mkLog {
  level : Level;
  fmt : string;
  args : list Arg
}.

Global Instance Level_eq_dec : EqDecision Level.
Proof. solve_decision. Defined.
Global Instance Arg_eq_dec : EqDecision Arg.
Proof. solve_decision. Defined.
Global Instance LogRecord_eq_dec : EqDecision LogRecord.
Proof. solve_decision. Defined.

Definition is_warning (r : LogRecord) : bool :=
  match level r with WARNING => true | _ => false end.

Definition warnings (log : list LogRecord) : list LogRecord :=
  filter (λ r, is_warning r = true) log.

(** ** utils.py *)

Module Utils.

Definition PERM_ORDER : list string :=
  ["REPO_READ"; "REPO_WRITE"; "REPO_ADMIN"].

Definition BITBUCKET_TO_GITHUB : gmap string string :=
  <["REPO_READ" := "pull"]>
    (<["REPO_WRITE" := "push"]>
       (<["REPO_ADMIN" := "admin"]> ∅)).

Definition unknown_permission (new_perm : string) : LogRecord :=
  mkLog WARNING "Unknown permission encountered: %s" [AStr new_perm].

(** [max_perm(current, new_perm)].  [max] with a key returns the first
    of the maximal elements, so [current] wins a tie; a [ValueError]
    from either [PERM_ORDER.index] call lands in the handler. *)
Definition max_perm (current : option string) (new_perm : string)
  : string * list LogRecord :=
  match current with
  | None => (new_perm, [])
  | Some cur =>
      match Py.index cur PERM_ORDER, Py.index new_perm PERM_ORDER with
      | Some i, Some j => (if (i <? j)%nat then new_perm else cur, [])
      | _, _ => (cur, [unknown_permission new_perm])
      end
  end.

Record GithubTarget := mkTarget { org : string; repo : string }.

Definition from_project_repo (org project_key repo_slug : string)
  : GithubTarget :=
  mkTarget org (project_key +:+ "-" +:+ repo_slug).

(** A permission the order knows. *)
Definition known (p : string) : Prop := p ∈ PERM_ORDER.

Definition rank (p : string) : option nat := Py.index p PERM_ORDER.

End Utils.

(** ** expand_groups.py *)

Module ExpandGroups.
Import Utils.

(** One value of the [effective] dictionary: the dict literal with its
    six fixed keys. *)
Record EffRow := mkEff {
  project_key : string;
  repo_slug : string;
  email : string;
  permission : string;
  source : string;
  source_principal : string
}.

Global Instance EffRow_eq_dec : EqDecision EffRow.
Proof. solve_decision. Defined.

(** The key [(project_key, repo_slug, email)]. *)
Abbreviation Key := (string * string * string)%type.

(** The state of the two merge loops: [effective] and the log. *)
Abbreviation State := (gmap Key EffRow * list LogRecord)%type.

Definition skipping_direct (row : Row) : LogRecord :=
  mkLog WARNING "Skipping direct user row without email: %s" [ARow row].

Definition no_members (group : string) : LogRecord :=
  mkLog WARNING
    "Group %s has repo permissions but no members were found in group_members.csv"
    [AStr group].

Definition dry_run_info (n : nat) : LogRecord :=
  mkLog INFO "Dry-run: would write %d effective permission rows" [ANat n].

(** [members_by_group]: the [defaultdict(list)] filled from
    [group_members.csv]. *)
Definition add_member (acc : gmap string (list Row)) (row : Row)
  : gmap string (list Row) :=
  let g := Py.get_default row "group" "" in
  if Py.truthy g then <[g := default [] (acc !! g) ++ [row]]> acc else acc.

Definition load_members (group_members : list Row) : gmap string (list Row) :=
  foldl add_member ∅ group_members.

(** Body of [for row in direct]. *)
Definition direct_step (st : State) (row : Row) : State :=
  let '(effective, log) := st in
  let email := Py.strip (Py.or_else (row !! "email") "") in
  if negb (Py.truthy email) then (effective, log ++ [skipping_direct row])
  else
    let key := (Py.get_default row "project_key" "",
                Py.get_default row "repo_slug" "", email) in
    let current := effective !! key in
    let perm := Py.or_else (row !! "permission") "" in
    let prev := permission <$> current in
    let '(new_perm, w) := max_perm prev perm in
    (<[key := mkEff key.1.1 key.1.2 email new_perm "user"
                    (Py.get_default row "principal" "")]> effective,
     log ++ w).

(** Body of [for m in members]. *)
Definition member_step (row : Row) (group perm : string)
           (st : State) (m : Row) : State :=
  let '(effective, log) := st in
  let email := Py.strip (Py.or_else (m !! "email") "") in
  if negb (Py.truthy email) then st
  else
    let key := (Py.get_default row "project_key" "",
                Py.get_default row "repo_slug" "", email) in
    let current := effective !! key in
    let prev := permission <$> current in
    let '(new_perm, w) := max_perm prev perm in
    (<[key := mkEff key.1.1 key.1.2 email new_perm "group" group]> effective,
     log ++ w).

(** Body of [for row in group_perms]. *)
Definition group_step (members_by_group : gmap string (list Row))
           (st : State) (row : Row) : State :=
  let group := Py.or_else (row !! "principal") "" in
  let perm := Py.or_else (row !! "permission") "" in
  if negb (Py.truthy group) then st
  else
    let members := default [] (members_by_group !! group) in
    let st1 :=
      match members with
      | [] => (st.1, st.2 ++ [no_members group])
      | _ :: _ => st
      end in
    foldl (member_step row group perm) st1 members.

(** [effective] and the log once both loops have run. *)
Definition merge (direct group_perms group_members : list Row) : State :=
  let members_by_group := load_members group_members in
  let st := foldl direct_step (∅, []) direct in
  foldl (group_step members_by_group) st group_perms.

(** The sort key [(r["project_key"], r["repo_slug"], r["email"])] and
    the order of Python tuples of strings. *)
Definition sort_key (r : EffRow) : Key :=
  (project_key r, repo_slug r, email r).

Definition key_leb (a b : Key) : bool :=
  match String.compare a.1.1 b.1.1 with
  | Lt => true
  | Gt => false
  | Eq =>
      match String.compare a.1.2 b.1.2 with
      | Lt => true
      | Gt => false
      | Eq => String.leb a.2 b.2
      end
  end.

Definition row_le (a b : EffRow) : Prop :=
  key_leb (sort_key a) (sort_key b) = true.

Global Instance row_le_dec : RelDecision row_le.
Proof. intros a b. unfold row_le. apply _. Defined.

Definition out_rows (effective : gmap Key EffRow) : list EffRow :=
  merge_sort row_le ((map_to_list effective).*2).

(** What [expand] leaves behind: the rows handed to [write_csv]
    ([None] under [dry_run], where nothing is written) and the log. *)
Record Result := mkResult {
  written : option (list EffRow);
  log : list LogRecord
}.

Definition expand (direct group_perms group_members : list Row)
           (dry_run : bool) : Result :=
  let '(effective, lg) := merge direct group_perms group_members in
  let rows := out_rows effective in
  if dry_run then mkResult None (lg ++ [dry_run_info (length rows)])
  else mkResult (Some rows) lg.

(** *** The merge seen as one fold

    Both loops do the same thing to [effective]; a [Grant] is what one
    iteration contributes, and [grants] lists them in the order the two
    loops visit them. *)
Record Grant := mkGrant {
  g_key : Key;
  g_perm : string;
  g_source : string;
  g_principal : string
}.

Definition direct_grant (row : Row) : option Grant :=
  let email := Py.strip (Py.or_else (row !! "email") "") in
  if Py.truthy email then
    Some (mkGrant (Py.get_default row "project_key" "",
                   Py.get_default row "repo_slug" "", email)
                  (Py.or_else (row !! "permission") "")
                  "user" (Py.get_default row "principal" ""))
  else None.

Definition member_grant (row : Row) (m : Row) : option Grant :=
  let email := Py.strip (Py.or_else (m !! "email") "") in
  if Py.truthy email then
    Some (mkGrant (Py.get_default row "project_key" "",
                   Py.get_default row "repo_slug" "", email)
                  (Py.or_else (row !! "permission") "")
                  "group" (Py.or_else (row !! "principal") ""))
  else None.

Definition group_grants (members_by_group : gmap string (list Row))
           (row : Row) : list Grant :=
  let group := Py.or_else (row !! "principal") "" in
  if Py.truthy group
  then omap (member_grant row) (default [] (members_by_group !! group))
  else [].

Definition grants (direct group_perms group_members : list Row)
  : list Grant :=
  omap direct_grant direct
    ++ (group_perms ≫= group_grants (load_members group_members)).

Definition apply_grant (effective : gmap Key EffRow) (g : Grant)
  : gmap Key EffRow :=
  let k := g_key g in
  <[k := mkEff k.1.1 k.1.2 k.2
           (max_perm (permission <$> effective !! k) (g_perm g)).1
           (g_source g) (g_principal g)]> effective.

(** The permissions granted for key [k], in fold order. *)
Definition perms_for (k : Key) (gs : list Grant) : list string :=
  g_perm <$> filter (λ g, g_key g = k) gs.

(** [q] is at most [p] in [PERM_ORDER]. *)
Definition perm_le (q p : string) : Prop :=
  ∃ i j : nat, rank q = Some i ∧ rank p = Some j ∧ (i ≤ j)%nat.

(** The number of warnings logged about group [g] having no members. *)
Definition no_members_count (g : string) (lg : list LogRecord) : nat :=
  length (filter (λ r, r = no_members g) lg).

(** All stored permissions are of the order. *)
Definition stored_known (eff : gmap Key EffRow) : Prop :=
  ∀ k r, eff !! k = Some r → known (permission r).

(** [p] is the strongest of [ps]. *)
Definition strongest (ps : list string) (p : string) : Prop :=
  p ∈ ps ∧ ∀ q, q ∈ ps → perm_le q p.

End ExpandGroups.

(** ** apply_github_permissions.py *)

Module ApplyGithub.
Import Utils.

(** *** The PyGithub client, as far as the loop uses it

    [G] is the state of the GitHub organisation.  A call either returns
    or raises [GithubException]; a repository object is stood for by
    its full name. *)
Inductive Outcome (A : Type) :=
| Returned (a : A)
| Raised.
Global Arguments Returned {A} a.
Global Arguments Raised {A}.

Class Github (G : Type) := {
  get_repo : G → string → Outcome unit;
  get_collaborator_permission : G → string → string → Outcome (option string);
  add_to_collaborators : G → string → string → string → Outcome G
}.

(** What a run leaves behind, in program order: log records and the
    calls made to GitHub. *)
Inductive Event :=
| Log (r : LogRecord)
| CallGetRepo (full_name : string)
| CallGetPermission (full_name login : string)
| CallAdd (full_name login permission : string).

Global Instance Event_eq_dec : EqDecision Event.
Proof. solve_decision. Defined.

Definition is_write (ev : Event) : bool :=
  match ev with CallAdd _ _ _ => true | _ => false end.

(** Calls about one identity: the permission read and the write. *)
Definition is_identity_call (ev : Event) : bool :=
  match ev with
  | CallGetPermission _ _ | CallAdd _ _ _ => true
  | _ => false
  end.

Definition writes (tr : list Event) : list Event :=
  filter (λ ev, is_write ev = true) tr.

(** Log records of [apply_permissions].  The exception a message ends
    with is not part of the record. *)
Definition loaded (n : nat) : LogRecord :=
  mkLog INFO "Loaded %d effective permission rows" [ANat n].
Definition processing (full_name : string) (n : nat) : LogRecord :=
  mkLog INFO "Processing repo %s with %d entries" [AStr full_name; ANat n].
Definition cannot_access (full_name : string) : LogRecord :=
  mkLog ERROR "Cannot access repo %s: %s" [AStr full_name].
Definition unknown_bb_perm (bb_perm email : string) : LogRecord :=
  mkLog WARNING "Unknown Bitbucket permission %s for %s; skipping"
        [AStr bb_perm; AStr email].
Definition no_mapping_default (email login : string) : LogRecord :=
  mkLog WARNING "No mapping for %s; using default login %s"
        [AStr email; AStr login].
Definition no_mapping_skip (email : string) : LogRecord :=
  mkLog WARNING "No mapping for %s; skipping" [AStr email].
Definition already_has (login gh_perm full_name : string) : LogRecord :=
  mkLog INFO "%s already has %s on %s"
        [AStr login; AStr gh_perm; AStr full_name].
Definition would_add (login full_name gh_perm email : string) : LogRecord :=
  mkLog INFO "Dry-run: would add/update %s on %s with %s (from %s)"
        [AStr login; AStr full_name; AStr gh_perm; AStr email].
Definition granted (gh_perm login full_name : string) : LogRecord :=
  mkLog INFO "Granted %s to %s on %s"
        [AStr gh_perm; AStr login; AStr full_name].
Definition failed_to_add (login full_name gh_perm : string) : LogRecord :=
  mkLog ERROR "Failed to add %s to %s with %s: %s"
        [AStr login; AStr full_name; AStr gh_perm].

Definition load_email_to_login (mapping_csv : option (list Row))
  : gmap string string :=
  match mapping_csv with
  | None => ∅
  | Some rows =>
      foldl (λ (mapping : gmap string string) (row : Row),
               let email := Py.lower (Py.strip (Py.or_else (row !! "email") "")) in
               let login := Py.strip (Py.or_else (row !! "github_login") "") in
               if Py.truthy email && Py.truthy login
               then <[email := login]> mapping else mapping)
            ∅ rows
  end.

(** The dict literal of the normalisation and its [.get(c, c)]. *)
Definition NORM : gmap string string :=
  list_to_map [("admin", "admin"); ("write", "push"); ("triage", "triage");
               ("maintain", "maintain"); ("read", "pull")].

Definition normalize (current_perm : string) : string :=
  default current_perm (NORM !! current_perm).

Section client.
Context {G : Type} `{Github G}.

(** [needs_update] after the [try] block. *)
Definition needs_update (gh : G) (full_name login gh_perm : string) : bool :=
  match get_collaborator_permission gh full_name login with
  | Returned current_perm =>
      match Py.nonempty current_perm with
      | Some c => negb (bool_decide (normalize c = gh_perm))
      | None => true
      end
  | Raised => true
  end.

(** The read-compare-write part of the loop body. *)
Definition read_compare_write (dry_run : bool)
           (full_name login gh_perm email : string) (gh : G)
  : G * list Event :=
  let rd := CallGetPermission full_name login in
  if negb (needs_update gh full_name login gh_perm)
  then (gh, [rd; Log (already_has login gh_perm full_name)])
  else if dry_run
  then (gh, [rd; Log (would_add login full_name gh_perm email)])
  else
    match add_to_collaborators gh full_name login gh_perm with
    | Returned gh' =>
        (gh', [rd; CallAdd full_name login gh_perm;
               Log (granted gh_perm login full_name)])
    | Raised =>
        (gh, [rd; CallAdd full_name login gh_perm;
              Log (failed_to_add login full_name gh_perm)])
    end.

(** Body of [for e in entries]. *)
Definition entry_step (email_to_login : gmap string string)
           (default_missing : option string) (dry_run : bool)
           (full_name : string) (gh : G) (e : Row) : G * list Event :=
  let email := Py.lower (Py.strip (Py.or_else (e !! "email") "")) in
  let bb_perm := Py.or_else (e !! "permission") "REPO_READ" in
  match Py.nonempty (BITBUCKET_TO_GITHUB !! bb_perm) with
  | None => (gh, [Log (unknown_bb_perm bb_perm email)])
  | Some gh_perm =>
      match Py.nonempty (email_to_login !! email) with
      | Some login =>
          read_compare_write dry_run full_name login gh_perm email gh
      | None =>
          match Py.nonempty default_missing with
          | Some login =>
              let '(gh', tr) :=
                read_compare_write dry_run full_name login gh_perm email gh in
              (gh', Log (no_mapping_default email login) :: tr)
          | None => (gh, [Log (no_mapping_skip email)])
          end
      end
  end.

(** A loop: run [body] on each element, threading GitHub's state and
    appending the events. *)
Definition for_each {A : Type} (body : G → A → G * list Event)
           (l : list A) (gh : G) : G * list Event :=
  foldl (λ (st : G * list Event) (x : A),
           let '(gh', tr) := body st.1 x in (gh', st.2 ++ tr))
        (gh, []) l.

(** Body of [for full_name, entries in sorted(by_repo.items())]. *)
Definition repo_step (email_to_login : gmap string string)
           (default_missing : option string) (dry_run : bool)
           (gh : G) (item : string * list Row) : G * list Event :=
  let '(full_name, entries) := item in
  let hd := [Log (processing full_name (length entries));
             CallGetRepo full_name] in
  match get_repo gh full_name with
  | Raised => (gh, hd ++ [Log (cannot_access full_name)])
  | Returned _ =>
      let '(gh', tr) :=
        for_each (λ g e, entry_step email_to_login default_missing
                                    dry_run full_name g e)
                 entries gh in
      (gh', hd ++ tr)
  end.

(** [by_repo]: rows grouped under [f"{tgt.org}/{tgt.repo}"]. *)
Definition full_name_of (org : string) (r : Row) : string :=
  let tgt := from_project_repo org (Py.get_default r "project_key" "")
                               (Py.get_default r "repo_slug" "") in
  Utils.org tgt +:+ "/" +:+ Utils.repo tgt.

Definition group_by_repo (org : string) (rows : list Row)
  : gmap string (list Row) :=
  foldl (λ (by_repo : gmap string (list Row)) (r : Row),
           let full := full_name_of org r in
           <[full := default [] (by_repo !! full) ++ [r]]> by_repo)
        ∅ rows.

Definition item_le (a b : string * list Row) : Prop := String.le a.1 b.1.

Global Instance item_le_dec : RelDecision item_le.
Proof. intros a b. unfold item_le. apply _. Defined.

Definition sorted_items (by_repo : gmap string (list Row))
  : list (string * list Row) :=
  merge_sort item_le (map_to_list by_repo).

(** [apply_permissions]: [gh] is GitHub as the token sees it,
    [effective_csv] and [mapping_csv] the rows read from the files. *)
Definition apply_permissions (gh : G) (org : string)
           (effective_csv : list Row) (mapping_csv : option (list Row))
           (default_missing : option string) (dry_run : bool)
  : G * list Event :=
  let email_to_login := load_email_to_login mapping_csv in
  let by_repo := group_by_repo org effective_csv in
  let '(gh', tr) :=
    for_each (repo_step email_to_login default_missing dry_run)
             (sorted_items by_repo) gh in
  (gh', Log (loaded (length effective_csv)) :: tr).

(** What an entry asks for: the login it resolves to and the GitHub
    level, or [None] when the entry is skipped before any call. *)
Definition resolve (email_to_login : gmap string string)
           (default_missing : option string) (e : Row)
  : option (string * string) :=
  let email := Py.lower (Py.strip (Py.or_else (e !! "email") "")) in
  let bb_perm := Py.or_else (e !! "permission") "REPO_READ" in
  match Py.nonempty (BITBUCKET_TO_GITHUB !! bb_perm) with
  | None => None
  | Some gh_perm =>
      match Py.nonempty (email_to_login !! email) with
      | Some login => Some (login, gh_perm)
      | None =>
          match Py.nonempty default_missing with
          | Some login => Some (login, gh_perm)
          | None => None
          end
      end
  end.

End client.

(** *** A reference GitHub

    Collaborator levels per (repository, login), in GitHub's own
    vocabulary; only the repositories listed are reachable. *)
Record MemGithub := mkMem {
  repos : list string;
  collaborators : gmap (string * string) string
}.

(** The level GitHub reports after a grant of [permission]. *)
Definition reported (permission : string) : string :=
  if decide (permission = "pull") then "read"
  else if decide (permission = "push") then "write"
  else permission.

Global Instance MemGithub_client : Github MemGithub := {
  get_repo gh full_name :=
    if bool_decide (full_name ∈ repos gh) then Returned () else Raised;
  get_collaborator_permission gh full_name login :=
    Returned (Some (default "none" (collaborators gh !! (full_name, login))));
  add_to_collaborators gh full_name login permission :=
    Returned (mkMem (repos gh)
                    (<[(full_name, login) := reported permission]>
                       (collaborators gh)))
}.

(** *** What a second run relies on

    GitHub keeps what it is told: after a grant of one of the three
    levels the read for that repository and login reports it, reads
    for other repositories or logins are unchanged, and so is the
    reachability of repositories. *)
Class GithubLaws (G : Type) `{Github G} : Prop := {
  add_then_read : ∀ gh gh' full_name login bb_perm gh_perm,
    BITBUCKET_TO_GITHUB !! bb_perm = Some gh_perm →
    add_to_collaborators gh full_name login gh_perm = Returned gh' →
    needs_update gh' full_name login gh_perm = false;
  add_frame : ∀ gh gh' full_name login gh_perm full_name' login',
    add_to_collaborators gh full_name login gh_perm = Returned gh' →
    (full_name', login') ≠ (full_name, login) →
    get_collaborator_permission gh' full_name' login'
    = get_collaborator_permission gh full_name' login';
  add_keeps_repos : ∀ gh gh' full_name login gh_perm full_name',
    add_to_collaborators gh full_name login gh_perm = Returned gh' →
    get_repo gh' full_name' = get_repo gh full_name'
}.

(** Two rows do not ask for different levels for one login on one
    repository. *)
Definition same_target (org : string) (email_to_login : gmap string string)
           (default_missing : option string) (e1 e2 : Row) : bool :=
  match resolve email_to_login default_missing e1,
        resolve email_to_login default_missing e2 with
  | Some (l1, p1), Some (l2, p2) =>
      if bool_decide (full_name_of org e1 = full_name_of org e2 ∧ l1 = l2)
      then bool_decide (p1 = p2) else true
  | _, _ => true
  end.

Definition consistent (org : string) (email_to_login : gmap string string)
           (default_missing : option string) (rows : list Row) : bool :=
  forallb (λ e1, forallb (same_target org email_to_login default_missing e1) rows)
          rows.

(** A write that raised, as the log shows it. *)
Definition is_failed_write (ev : Event) : bool :=
  match ev with
  | Log r => bool_decide (fmt r = "Failed to add %s to %s with %s: %s")
  | _ => false
  end.

Definition no_failed_write (tr : list Event) : bool :=
  forallb (λ ev, negb (is_failed_write ev)) tr.

(** The entry asks for nothing GitHub does not already have. *)
Definition satisfied {G : Type} `{Github G}
           (email_to_login : gmap string string)
           (default_missing : option string)
           (gh : G) (full_name : string) (e : Row) : Prop :=
  ∀ login gh_perm,
    resolve email_to_login default_missing e = Some (login, gh_perm) →
    needs_update gh full_name login gh_perm = false.

(** Entries [e] of repository [f] and [e'] of [f'] do not compete. *)
Definition compatible (email_to_login : gmap string string)
           (default_missing : option string)
           (f : string) (e : Row) (f' : string) (e' : Row) : Prop :=
  f = f' →
  ∀ login p p',
    resolve email_to_login default_missing e = Some (login, p) →
    resolve email_to_login default_missing e' = Some (login, p') →
    p = p'.

End ApplyGithub.

(** ** bitbucket.py: paging *)

Module Bitbucket.

(** A value of the query parameters. *)
Inductive Param :=
| PInt (n : nat)
| PStr (s : string).

Global Instance Param_eq_dec : EqDecision Param.
Proof. solve_decision. Defined.

(** What the loop reads from the JSON of one page:
    [data.get("values", [])], the truth of [data.get("isLastPage", False)]
    and [data.get("nextPageStart")]. *)
Record Page (V : Type) := mkPage {
  values : list V;
  isLastPage : bool;
  nextPageStart : option nat
}.
Global Arguments mkPage {V} _ _ _.
Global Arguments values {V} _.
Global Arguments isLastPage {V} _.
Global Arguments nextPageStart {V} _.

(** [_get]: the decoded body, or the [HTTPError] of [raise_for_status]. *)
Inductive Response (V : Type) :=
| Ok (data : Page V)
| HTTPError.
Global Arguments Ok {V} data.
Global Arguments HTTPError {V}.

(** How the generator stops.  [OutOfFuel] is the model's own: the
    [while True] loop was still running when the fuel ran out. *)
Inductive Status := Done | RaisedHTTPError | RaisedTypeError | OutOfFuel.

(** [start += len(values)], which needs a number. *)
Definition advance (start : Param) (n : nat) : option Param :=
  match start with
  | PInt s => Some (PInt (s + n))
  | PStr _ => None
  end.

(** The [while True] loop of [_paginate]: the items yielded so far and
    how the loop stopped. *)
Fixpoint paginate_from {V : Type} (fuel : nat)
         (_get : string → gmap string Param → Response V)
         (path : string) (params : gmap string Param)
         (limit start : Param) : list V * Status :=
  match fuel with
  | 0 => ([], OutOfFuel)
  | S fuel' =>
      let page_params := <["start" := start]> (<["limit" := limit]> params) in
      match _get path page_params with
      | HTTPError => ([], RaisedHTTPError)
      | Ok data =>
          if isLastPage data then (values data, Done)
          else
            let next :=
              match nextPageStart data with
              | None => advance start (length (values data))
              | Some next_start => Some (PInt next_start)
              end in
            match next with
            | None => (values data, RaisedTypeError)
            | Some start' =>
                let '(rest, st) :=
                  paginate_from fuel' _get path params limit start' in
                (values data ++ rest, st)
            end
      end
  end.

Definition _paginate {V : Type} (fuel : nat)
           (_get : string → gmap string Param → Response V)
           (path : string) (params : option (gmap string Param))
  : list V * Status :=
  let params := default ∅ params in
  let limit := default (PInt 1000) (params !! "limit") in
  let start := default (PInt 0) (params !! "start") in
  paginate_from fuel _get path params limit start.

(** A server that holds the list [all] and serves it in pages of
    [limit] items from [start], as Bitbucket does. *)
Definition paged_server {V : Type} (all : list V)
           (path : string) (params : gmap string Param) : Response V :=
  match params !! "start", params !! "limit" with
  | Some (PInt s), Some (PInt l) =>
      Ok (mkPage (take l (drop s all))
                 (bool_decide (length all ≤ s + l)%nat)
                 (Some (s + l)))
  | _, _ => HTTPError
  end.

End Bitbucket.

(** ** Inputs used in the worked examples *)

Module Examples.
Import ExpandGroups ApplyGithub.

Definition row (l : list (string * string)) : Row := list_to_map l.

Definition direct_row (pk rs principal email perm : string) : Row :=
  row [("project_key", pk); ("repo_slug", rs); ("principal_type", "user");
       ("principal", principal); ("email", email); ("permission", perm)].

Definition group_row (pk rs group perm : string) : Row :=
  row [("project_key", pk); ("repo_slug", rs); ("principal_type", "group");
       ("principal", group); ("permission", perm)].

Definition member_row (group user email : string) : Row :=
  row [("group", group); ("user", user); ("email", email)].

Definition eff_row (pk rs email perm : string) : Row :=
  row [("project_key", pk); ("repo_slug", rs); ("email", email);
       ("permission", perm); ("source", "user"); ("source_principal", "")].

Definition k1 : Key := ("P1", "R1", "a@x.com").

(** The same two direct grants in both orders, one of them with a
    permission string outside the order. *)
Definition owner_first : list Row :=
  [direct_row "P1" "R1" "alice" "a@x.com" "REPO_OWNER";
   direct_row "P1" "R1" "alice" "a@x.com" "REPO_READ"].
Definition owner_last : list Row :=
  [direct_row "P1" "R1" "alice" "a@x.com" "REPO_READ";
   direct_row "P1" "R1" "alice" "a@x.com" "REPO_OWNER"].

(** Two groups with grants on one repository, in both orders, and a
    user who belongs to both. *)
Definition dev_then_ops : list Row :=
  [group_row "P1" "R1" "dev" "REPO_READ";
   group_row "P1" "R1" "ops" "REPO_WRITE"].
Definition ops_then_dev : list Row :=
  [group_row "P1" "R1" "ops" "REPO_WRITE";
   group_row "P1" "R1" "dev" "REPO_READ"].
Definition in_both : list Row :=
  [member_row "dev" "alice" "a@x.com"; member_row "ops" "alice" "a@x.com"].

(** A direct grant for one user, and one for another user on another
    repository whose permission column is blank. *)
Definition read_and_blank : list Row :=
  [direct_row "P1" "R1" "alice" "a@x.com" "REPO_READ";
   direct_row "P9" "R9" "zed" "z@x.com" ""].

(** A single direct grant with a permission string outside the order. *)
Definition owner_only : list Row :=
  [direct_row "P1" "R1" "alice" "a@x.com" "REPO_OWNER"].

(** The example of the specification: a direct READ and a WRITE through
    group "dev". *)
Definition direct_read : list Row :=
  [direct_row "P1" "R1" "alice" "a@x.com" "REPO_READ"].
Definition dev_write : list Row := [group_row "P1" "R1" "dev" "REPO_WRITE"].
Definition dev_read : list Row := [group_row "P1" "R1" "dev" "REPO_READ"].
Definition dev_members : list Row := [member_row "dev" "alice" "a@x.com"].

(** Group "dev" holds grants on two repositories. *)
Definition dev_two_repos : list Row :=
  [group_row "P1" "R1" "dev" "REPO_WRITE";
   group_row "P1" "R2" "dev" "REPO_WRITE"].

(** A member the extraction found no address for. *)
Definition dev_no_email : list Row := [member_row "dev" "bob" ""].

(** An organisation with one repository and no collaborator yet. *)
Definition acme : MemGithub := mkMem ["acme/P1-R1"] ∅.

(** Two addresses without mapping, with different levels on the same
    repository. *)
Definition two_unmapped : list Row :=
  [eff_row "P1" "R1" "a@x.com" "REPO_READ";
   eff_row "P1" "R1" "b@x.com" "REPO_WRITE"].

Definition mapping_ab : option (list Row) :=
  Some [row [("email", "a@x.com"); ("github_login", "alice")];
        row [("email", "b@x.com"); ("github_login", "bob")]].

(** A row of the effective set without its permission column. *)
Definition no_permission : Row :=
  row [("project_key", "P1"); ("repo_slug", "R1"); ("email", "a@x.com")].


(** Five items served two at a time, and the parameters every caller of
    the paging loop passes besides its own. *)
Definition five : list nat := [1; 2; 3; 4; 5].
Definition limit_two : gmap string Bitbucket.Param :=
  {["limit" := Bitbucket.PInt 2]}.

(** A server that answers every request with an empty page that is not
    the last and names no next start. *)
Definition empty_pages (path : string) (params : gmap string Bitbucket.Param)
  : Bitbucket.Response nat :=
  Bitbucket.Ok (Bitbucket.mkPage [] false None).

End Examples.

(** * Properties *)

Import Utils ExpandGroups ApplyGithub.

(** ** The order on permissions *)

Lemma rank_known p i : rank p = Some i → known p.
Proof.
  unfold rank, known, PERM_ORDER. simpl.
  repeat case_decide; subst; simpl; intros ?; try discriminate; set_solver.
Qed.

Lemma known_rank p : known p → ∃ i, rank p = Some i.
Proof.
  unfold known, PERM_ORDER. intros Hp.
  repeat (apply elem_of_cons in Hp as [->|Hp]); [eexists; reflexivity ..|].
  by apply elem_of_nil in Hp.
Qed.

Lemma unknown_rank p : ¬ known p → rank p = None.
Proof.
  intros Hp. destruct (rank p) as [i|] eqn:E; [|done].
  destruct Hp. by eapply rank_known.
Qed.

Lemma rank_inj p q i : rank p = Some i → rank q = Some i → p = q.
Proof.
  unfold rank, PERM_ORDER. simpl.
  repeat case_decide; subst; simpl; intros; simplify_eq; done.
Qed.

Lemma perm_le_refl p : known p → perm_le p p.
Proof. intros [i Hi]%known_rank. exists i, i. auto. Qed.

Lemma perm_le_trans p q r : perm_le p q → perm_le q r → perm_le p r.
Proof.
  intros (i & j & Hi & Hj & ?) (j' & k & Hj' & Hk & ?).
  exists i, k. repeat split; [done..|]. simplify_eq. lia.
Qed.

Lemma perm_le_antisym p q : perm_le p q → perm_le q p → p = q.
Proof.
  intros (i & j & Hi & Hj & ?) (j' & i' & Hj' & Hi' & ?).
  simplify_eq. assert (i = j) as -> by lia. by eapply rank_inj.
Qed.

Lemma max_perm_None p : max_perm None p = (p, []).
Proof. reflexivity. Qed.

Lemma max_perm_unknown_new cur new :
  ¬ known new → max_perm (Some cur) new = (cur, [unknown_permission new]).
Proof.
  intros Hn%unknown_rank. unfold max_perm. fold (rank cur) (rank new).
  rewrite Hn. by destruct (rank cur).
Qed.

Lemma max_perm_unknown_cur cur new :
  ¬ known cur → max_perm (Some cur) new = (cur, [unknown_permission new]).
Proof.
  intros Hn%unknown_rank. unfold max_perm. fold (rank cur) (rank new).
  by rewrite Hn.
Qed.

(** On known permissions [max_perm] is the join of the order, and is
    silent. *)
Lemma max_perm_known cur new :
  known cur → known new →
  ∃ r, max_perm (Some cur) new = (r, []) ∧ (r = cur ∨ r = new)
       ∧ perm_le cur r ∧ perm_le new r.
Proof.
  intros [i Hi]%known_rank [j Hj]%known_rank.
  unfold max_perm. fold (rank cur) (rank new). rewrite Hi, Hj.
  destruct (i <? j)%nat eqn:E.
  - apply Nat.ltb_lt in E. exists new. repeat split; auto.
    + exists i, j. repeat split; auto. lia.
    + exists j, j. auto.
  - apply Nat.ltb_ge in E. exists cur. repeat split; auto.
    + exists i, i. auto.
    + exists j, i. auto.
Qed.

Lemma max_perm_tie p : known p → max_perm (Some p) p = (p, []).
Proof.
  intros [i Hi]%known_rank. unfold max_perm. fold (rank p).
  rewrite Hi. by rewrite Nat.ltb_irrefl.
Qed.

(** C4. For any three permissions of the order REPO_READ < REPO_WRITE <
    REPO_ADMIN, [max_perm] is associative:
    max_perm(max_perm(a,b),c) = max_perm(a,max_perm(b,c)). *)
Theorem max_perm_assoc (a b c : string) :
  known a → known b → known c →
  (max_perm (Some (max_perm (Some a) b).1) c).1
  = (max_perm (Some a) (max_perm (Some b) c).1).1.
Proof.
  unfold known, PERM_ORDER. intros Ha Hb Hc.
  repeat (apply elem_of_cons in Ha as [->|Ha]);
    try (by apply elem_of_nil in Ha);
    repeat (apply elem_of_cons in Hb as [->|Hb]);
    try (by apply elem_of_nil in Hb);
    repeat (apply elem_of_cons in Hc as [->|Hc]);
    try (by apply elem_of_nil in Hc);
    reflexivity.
Qed.

Lemma max_perm_assoc_witness :
  (max_perm (Some (max_perm (Some "REPO_READ") "REPO_ADMIN").1) "REPO_WRITE").1
  = (max_perm (Some "REPO_READ") (max_perm (Some "REPO_ADMIN") "REPO_WRITE").1).1.
Proof.
  apply (max_perm_assoc "REPO_READ" "REPO_ADMIN" "REPO_WRITE");
    apply (bool_decide_unpack _); vm_compute; exact I.
Defined.

(** ** The merge is a fold of [apply_grant] over [grants] *)

Lemma direct_step_fst st row :
  (direct_step st row).1
  = match direct_grant row with
    | Some g => apply_grant st.1 g
    | None => st.1
    end.
Proof.
  destruct st as [eff lg]. unfold direct_step, direct_grant, apply_grant.
  destruct (Py.truthy _); simpl; [|done].
  by destruct (max_perm _ _).
Qed.

Lemma member_step_fst row st m :
  (member_step row (Py.or_else (row !! "principal") "")
               (Py.or_else (row !! "permission") "") st m).1
  = match member_grant row m with
    | Some g => apply_grant st.1 g
    | None => st.1
    end.
Proof.
  destruct st as [eff lg]. unfold member_step, member_grant, apply_grant.
  destruct (Py.truthy _); simpl; [|done].
  by destruct (max_perm _ _).
Qed.

Lemma foldl_omap_fst {A S T} (step : S * T → A → S * T) (f : A → option Grant)
      (ap : S → Grant → S) (l : list A) (st : S * T) :
  (∀ st x, (step st x).1 = match f x with Some g => ap st.1 g | None => st.1 end) →
  (foldl step st l).1 = foldl ap st.1 (omap f l).
Proof.
  intros Hstep. revert st. induction l as [|x l IH]; intros st; simpl; [done|].
  rewrite IH, Hstep. by destruct (f x).
Qed.

Lemma group_step_fst mbg st row :
  (group_step mbg st row).1 = foldl apply_grant st.1 (group_grants mbg row).
Proof.
  unfold group_step, group_grants.
  destruct (Py.truthy (Py.or_else (row !! "principal") "")); simpl; [|done].
  set (st1 := match default [] (mbg !! _) with [] => _ | _ :: _ => st end).
  assert (st1.1 = st.1) as <- by (subst st1; by destruct (default _ _)).
  apply foldl_omap_fst. intros. apply member_step_fst.
Qed.

Lemma foldl_bind_fst {A S T B} (step : S * T → A → S * T) (f : A → list B)
      (ap : S → B → S) (l : list A) (st : S * T) :
  (∀ st x, (step st x).1 = foldl ap st.1 (f x)) →
  (foldl step st l).1 = foldl ap st.1 (l ≫= f).
Proof.
  intros Hstep. revert st. induction l as [|x l IH]; intros st; simpl; [done|].
  by rewrite foldl_app, IH, Hstep.
Qed.

Lemma merge_fst direct group_perms group_members :
  (merge direct group_perms group_members).1
  = foldl apply_grant ∅ (grants direct group_perms group_members).
Proof.
  unfold merge, grants. rewrite foldl_app.
  rewrite (foldl_bind_fst _ (group_grants (load_members group_members)) apply_grant)
    by (intros; apply group_step_fst).
  f_equal.
  by rewrite (foldl_omap_fst _ direct_grant apply_grant)
    by (intros; apply direct_step_fst).
Qed.

Lemma filter_none {A} (P : A → Prop) `{!∀ x, Decision (P x)} (l : list A) :
  (∀ x, x ∈ l → ¬ P x) → filter P l = [].
Proof.
  induction l as [|x l IH]; intros Hl; [done|].
  rewrite filter_cons. case_decide as HP.
  - destruct (Hl x); [by left|done].
  - apply IH. intros y Hy. apply Hl. by right.
Qed.

Lemma foldl_apply_grant_snoc eff gs g :
  foldl apply_grant eff (gs ++ [g]) = apply_grant (foldl apply_grant eff gs) g.
Proof. by rewrite foldl_app. Qed.

Lemma perms_for_snoc k gs g :
  perms_for k (gs ++ [g])
  = perms_for k gs ++ (if decide (g_key g = k) then [g_perm g] else []).
Proof.
  unfold perms_for. rewrite filter_app, fmap_app. f_equal.
  rewrite filter_cons, filter_nil. by case_decide.
Qed.

Lemma apply_grant_lookup_ne eff g k :
  g_key g ≠ k → apply_grant eff g !! k = eff !! k.
Proof. intros. unfold apply_grant. by rewrite lookup_insert_ne. Qed.

Lemma apply_grant_lookup_eq eff g :
  apply_grant eff g !! g_key g
  = Some (mkEff (g_key g).1.1 (g_key g).1.2 (g_key g).2
                (max_perm (permission <$> eff !! g_key g) (g_perm g)).1
                (g_source g) (g_principal g)).
Proof. unfold apply_grant. by rewrite lookup_insert_eq. Qed.

(** A key is absent after the fold exactly when no grant names it. *)
Lemma fold_lookup_None gs k :
  foldl apply_grant ∅ gs !! k = None ↔ ∀ g, g ∈ gs → g_key g ≠ k.
Proof.
  induction gs as [|g gs IH] using rev_ind.
  - simpl. rewrite lookup_empty. split; [|done]. intros _ g Hg.
    by apply elem_of_nil in Hg.
  - rewrite foldl_apply_grant_snoc. destruct (decide (g_key g = k)) as [<-|Hne].
    + rewrite apply_grant_lookup_eq. split; [done|].
      intros Hall. destruct (Hall g); [set_solver|done].
    + rewrite apply_grant_lookup_ne by done. rewrite IH. set_solver.
Qed.

(** Every stored row sits under its own key. *)
Lemma fold_sort_key gs k r :
  foldl apply_grant ∅ gs !! k = Some r → sort_key r = k.
Proof.
  induction gs as [|g gs IH] using rev_ind; simpl.
  - by rewrite lookup_empty.
  - rewrite foldl_apply_grant_snoc. destruct (decide (g_key g = k)) as [<-|Hne].
    + rewrite apply_grant_lookup_eq. intros [= <-]. unfold sort_key. simpl.
      by destruct (g_key g) as [[? ?] ?].
    + by rewrite apply_grant_lookup_ne.
Qed.

(** A key is present after the fold exactly when some grant names it. *)
Lemma fold_lookup_is_Some gs k :
  is_Some (foldl apply_grant ∅ gs !! k) ↔ ∃ g, g ∈ gs ∧ g_key g = k.
Proof.
  induction gs as [|g gs IH] using rev_ind.
  - simpl. rewrite lookup_empty. split.
    + by intros [? ?].
    + intros (g & Hg & _). by apply elem_of_nil in Hg.
  - rewrite foldl_apply_grant_snoc. destruct (decide (g_key g = k)) as [<-|Hne].
    + rewrite apply_grant_lookup_eq. split; [|by eexists].
      intros _. exists g. split; [|done]. apply elem_of_app. right. by left.
    + rewrite apply_grant_lookup_ne by done. rewrite IH. split.
      * intros (g' & Hg' & Hk). exists g'. split; [|done].
        apply elem_of_app. by left.
      * intros (g' & [Hg'|Hg']%elem_of_app & Hk); [by exists g'|].
        apply list_elem_of_singleton in Hg'. by subst g'.
Qed.

(** When the grants for a key carry known permissions only, the fold
    keeps the strongest of them for that key, whatever the other keys
    are granted. *)
Lemma fold_strongest gs k r :
  (∀ g, g ∈ gs → g_key g = k → known (g_perm g)) →
  foldl apply_grant ∅ gs !! k = Some r →
  strongest (perms_for k gs) (permission r).
Proof.
  revert r. induction gs as [|g gs IH] using rev_ind; intros r Hk; simpl.
  - by rewrite lookup_empty.
  - rewrite foldl_apply_grant_snoc, perms_for_snoc.
    assert (∀ g, g ∈ gs → g_key g = k → known (g_perm g)) as Hk'.
    { intros g' Hg'. apply Hk, elem_of_app. by left. }
    case_decide as Hkey.
    + assert (known (g_perm g)) as Hg.
      { apply Hk; [|done]. apply elem_of_app. right. by left. }
      subst k. rewrite apply_grant_lookup_eq. intros [= <-].
      cbn [permission].
      destruct (foldl apply_grant ∅ gs !! g_key g) as [r0|] eqn:E;
        cbn [fmap option_fmap option_map].
      * destruct (IH r0 Hk' eq_refl) as [Hin Hmax].
        assert (known (permission r0)) as Hr0.
        { destruct (Hmax _ Hin) as (i & _ & Hi & _). by eapply rank_known. }
        destruct (max_perm_known _ _ Hr0 Hg) as (p & -> & Hp & Hle1 & Hle2).
        cbn [fst]. split.
        -- destruct Hp as [-> | ->]; [apply elem_of_app; by left|].
           apply elem_of_app. right. by left.
        -- intros q [Hq|Hq%list_elem_of_singleton]%elem_of_app.
           ++ eapply perm_le_trans; [by apply Hmax|done].
           ++ by subst q.
      * pose proof (proj1 (fold_lookup_None _ _) E) as E'.
        assert (perms_for (g_key g) gs = []) as ->.
        { unfold perms_for. rewrite filter_none; [done|].
          intros x Hx. by apply E'. }
        rewrite max_perm_None. cbn [fst app]. split; [by left|].
        intros q ->%list_elem_of_singleton. by apply perm_le_refl.
    + rewrite apply_grant_lookup_ne by done. rewrite app_nil_r. by apply IH.
Qed.

Lemma strongest_unique ps ps' p p' :
  ps ≡ₚ ps' → strongest ps p → strongest ps' p' → p = p'.
Proof.
  intros Hperm [Hin Hmax] [Hin' Hmax'].
  apply perm_le_antisym.
  - apply Hmax'. by rewrite <- Hperm.
  - apply Hmax. by rewrite Hperm.
Qed.

(** The rows written come out in the order of their keys. *)
Global Instance row_le_total : Total row_le.
Proof.
  intros a b. unfold row_le, key_leb, sort_key. cbn [fst snd].
  rewrite (String.compare_antisym (project_key b) (project_key a)).
  rewrite (String.compare_antisym (repo_slug b) (repo_slug a)).
  destruct (String.compare (project_key a) (project_key b)); simpl; auto.
  destruct (String.compare (repo_slug a) (repo_slug b)); simpl; auto.
  apply String.leb_total.
Qed.

Lemma out_rows_sorted eff : Sorted row_le (out_rows eff).
Proof. apply (Sorted_merge_sort row_le). Qed.

(** The rows written are exactly the values of [effective]. *)
Lemma elem_of_out_rows eff r :
  r ∈ out_rows eff ↔ ∃ k, eff !! k = Some r.
Proof.
  unfold out_rows. rewrite merge_sort_Permutation, list_elem_of_fmap.
  split.
  - intros ([k r'] & -> & Hin). exists k. by apply elem_of_map_to_list.
  - intros [k Hk]. exists (k, r). split; [done|]. by apply elem_of_map_to_list.
Qed.

(** The worked example: a direct REPO_READ and a REPO_WRITE through group
    "dev" give one row, REPO_WRITE, attributed to the group. *)
Example read_then_group_write :
  expand Examples.direct_read Examples.dev_write Examples.dev_members false
  = mkResult (Some [mkEff "P1" "R1" "a@x.com" "REPO_WRITE" "group" "dev"]) [].
Proof. vm_compute. reflexivity. Qed.

(** ** Order of the inputs *)

Lemma load_members_snoc gm m :
  load_members (gm ++ [m]) = add_member (load_members gm) m.
Proof. unfold load_members. by rewrite foldl_app. Qed.

(** [members_by_group.get(group, [])]: the member rows naming the group,
    in file order. *)
Lemma load_members_lookup gm g :
  default [] (load_members gm !! g)
  = if Py.truthy g then filter (λ m, Py.get_default m "group" "" = g) gm else [].
Proof.
  induction gm as [|m gm IH] using rev_ind.
  - unfold load_members. simpl. rewrite lookup_empty. by destruct (Py.truthy g).
  - rewrite load_members_snoc, filter_app, filter_cons, filter_nil.
    unfold add_member.
    destruct (Py.truthy (Py.get_default m "group" "")) eqn:Hm.
    + destruct (decide (Py.get_default m "group" "" = g)) as [Heq|Hne].
      * subst g. rewrite lookup_insert_eq. simpl. rewrite IH, Hm. done.
      * rewrite lookup_insert_ne by done. rewrite IH.
        destruct (Py.truthy g); [by rewrite app_nil_r|done].
    + rewrite IH. destruct (Py.truthy g) eqn:Hg; [|done].
      case_decide as Heq; [|by rewrite app_nil_r]. congruence.
Qed.

Lemma bind_Permutation_ext {A B} (f f' : A → list B) (l : list A) :
  (∀ x, f x ≡ₚ f' x) → l ≫= f ≡ₚ l ≫= f'.
Proof.
  intros Hf. induction l as [|x l IH]; [done|].
  rewrite !bind_cons. by rewrite IH, (Hf x).
Qed.

(** Reordering the three input files reorders the grants. *)
Lemma grants_Permutation d1 gp1 gm1 d2 gp2 gm2 :
  d1 ≡ₚ d2 → gp1 ≡ₚ gp2 → gm1 ≡ₚ gm2 →
  grants d1 gp1 gm1 ≡ₚ grants d2 gp2 gm2.
Proof.
  intros Hd Hgp Hgm. unfold grants. rewrite Hd. apply Permutation_app_head.
  rewrite Hgp. apply bind_Permutation_ext. intros row. unfold group_grants.
  destruct (Py.truthy _) eqn:Hg; [|done].
  rewrite !load_members_lookup, Hg. by rewrite Hgm.
Qed.

Lemma perms_for_Permutation k gs gs' :
  gs ≡ₚ gs' → perms_for k gs ≡ₚ perms_for k gs'.
Proof. intros Hp. unfold perms_for. by rewrite Hp. Qed.

Lemma fold_permission_Permutation gs gs' k :
  gs ≡ₚ gs' → (∀ g, g ∈ gs → g_key g = k → known (g_perm g)) →
  permission <$> foldl apply_grant ∅ gs !! k
  = permission <$> foldl apply_grant ∅ gs' !! k.
Proof.
  intros Hp Hk.
  assert (∀ g, g ∈ gs' → g_key g = k → known (g_perm g)) as Hk'.
  { intros g Hg. apply Hk. by rewrite Hp. }
  destruct (foldl apply_grant ∅ gs !! k) as [r|] eqn:E,
           (foldl apply_grant ∅ gs' !! k) as [r'|] eqn:E'; simpl.
  - f_equal. eapply strongest_unique;
      [by apply (perms_for_Permutation k), Hp | by apply fold_strongest ..].
  - pose proof (proj1 (fold_lookup_None _ _) E') as Hnone.
    apply (fold_strongest _ _ _ Hk) in E as [Hin _].
    unfold perms_for in Hin.
    apply list_elem_of_fmap in Hin as (g & _ & [Hg Hin]%list_elem_of_filter).
    destruct (Hnone g); [by rewrite <- Hp|done].
  - pose proof (proj1 (fold_lookup_None _ _) E) as Hnone.
    apply (fold_strongest _ _ _ Hk') in E' as [Hin _].
    unfold perms_for in Hin.
    apply list_elem_of_fmap in Hin as (g & _ & [Hg Hin]%list_elem_of_filter).
    destruct (Hnone g); [by rewrite Hp|done].
  - done.
Qed.

(** C1, as it fails.  The same grants in two orders give different
    results.  With a permission string outside the order, the stored
    permission depends on which grant comes first.  With known
    permissions only, the rows written still differ: a user in two groups
    ends up attributed to whichever group comes last in the file. *)
Lemma expand_order_dependent :
  (Examples.owner_first ≡ₚ Examples.owner_last
   ∧ permission <$> (merge Examples.owner_first [] []).1 !! Examples.k1
     = Some "REPO_OWNER"
   ∧ permission <$> (merge Examples.owner_last [] []).1 !! Examples.k1
     = Some "REPO_READ")
  ∧ (Examples.dev_then_ops ≡ₚ Examples.ops_then_dev
     ∧ written (expand [] Examples.dev_then_ops Examples.in_both false)
       = Some [mkEff "P1" "R1" "a@x.com" "REPO_WRITE" "group" "ops"]
     ∧ written (expand [] Examples.ops_then_dev Examples.in_both false)
       = Some [mkEff "P1" "R1" "a@x.com" "REPO_WRITE" "group" "dev"]).
Proof.
  split; (split; [apply Permutation_swap | split; vm_compute; reflexivity]).
Qed.

(** C1, amended.  Two inputs that form the same multiset of grants give
    the same keys.  For each key whose grants all carry a permission of
    the order, they give the same permission: the strongest of the
    permissions granted for that key, whatever the other keys are
    granted; the rows written carry that key and permission.
    (Attribution columns are not covered.) *)
Theorem merge_order_independent d1 gp1 gm1 d2 gp2 gm2 :
  grants d1 gp1 gm1 ≡ₚ grants d2 gp2 gm2 →
  ∀ k,
    (is_Some ((merge d1 gp1 gm1).1 !! k) ↔ is_Some ((merge d2 gp2 gm2).1 !! k))
    ∧ (is_Some ((merge d1 gp1 gm1).1 !! k)
       ↔ ∃ g, g ∈ grants d1 gp1 gm1 ∧ g_key g = k)
    ∧ ((∀ g, g ∈ grants d1 gp1 gm1 → g_key g = k → known (g_perm g)) →
       permission <$> (merge d1 gp1 gm1).1 !! k
       = permission <$> (merge d2 gp2 gm2).1 !! k
       ∧ (∀ r, (merge d1 gp1 gm1).1 !! k = Some r →
               sort_key r = k
               ∧ strongest (perms_for k (grants d1 gp1 gm1)) (permission r))
       ∧ (∀ p rows1 rows2,
            written (expand d1 gp1 gm1 false) = Some rows1 →
            written (expand d2 gp2 gm2 false) = Some rows2 →
            (∃ r, r ∈ rows1 ∧ sort_key r = k ∧ permission r = p)
            ↔ (∃ r, r ∈ rows2 ∧ sort_key r = k ∧ permission r = p))).
Proof.
  intros Hp k. rewrite !merge_fst. split; [|split].
  { rewrite !fold_lookup_is_Some. split; intros (g & Hg & Hkey); exists g.
    - by rewrite <- Hp.
    - by rewrite Hp. }
  { apply fold_lookup_is_Some. }
  intros Hk.
  pose proof (fold_permission_Permutation _ _ k Hp Hk) as Heq.
  split; [done|]. split.
  - intros r Hr. split; [by eapply fold_sort_key|by apply fold_strongest].
  - intros p rows1 rows2. unfold expand.
    destruct (merge d1 gp1 gm1) as [e1 l1] eqn:E1,
             (merge d2 gp2 gm2) as [e2 l2] eqn:E2.
    simpl. intros [= <-] [= <-].
    pose proof (merge_fst d1 gp1 gm1) as F1. rewrite E1 in F1. simpl in F1.
    pose proof (merge_fst d2 gp2 gm2) as F2. rewrite E2 in F2. simpl in F2.
    subst e1 e2.
    assert (∀ gs, (∃ r, r ∈ out_rows (foldl apply_grant ∅ gs)
                        ∧ sort_key r = k ∧ permission r = p)
                  ↔ permission <$> foldl apply_grant ∅ gs !! k = Some p) as Hrows.
    { intros gs. split.
      - intros (r & [k' Hk']%elem_of_out_rows & <- & <-).
        rewrite (fold_sort_key _ _ _ Hk') in *. by rewrite Hk'.
      - intros Hl. destruct (foldl apply_grant ∅ gs !! k) as [r|] eqn:E;
          [|done]. simpl in Hl. injection Hl as <-.
        exists r. split; [apply elem_of_out_rows; eauto|].
        split; [by eapply fold_sort_key|done]. }
    by rewrite !Hrows, Heq.
Qed.

Lemma merge_order_independent_witness :
  permission <$> (merge Examples.read_and_blank Examples.dev_then_ops
                        Examples.in_both).1 !! Examples.k1
  = permission <$> (merge Examples.read_and_blank Examples.ops_then_dev
                          Examples.in_both).1 !! Examples.k1.
Proof.
  refine (proj1 (proj2 (proj2 (merge_order_independent
            Examples.read_and_blank Examples.dev_then_ops Examples.in_both
            Examples.read_and_blank Examples.ops_then_dev Examples.in_both
            _ Examples.k1)) _)).
  - apply grants_Permutation; [done|apply Permutation_swap|done].
  - intros g Hg. vm_compute in Hg.
    repeat (apply elem_of_cons in Hg as [->|Hg]);
      try (by apply elem_of_nil in Hg);
      intros Hkey;
      first [ discriminate Hkey
            | apply (bool_decide_unpack _); vm_compute; exact I ].
Defined.

(** ** Attribution and unknown permissions *)

Lemma max_perm_same p : (max_perm (Some p) p).1 = p.
Proof.
  unfold max_perm. destruct (Py.index p PERM_ORDER); [|done].
  by rewrite Nat.ltb_irrefl.
Qed.

(** C2, as it fails.  A direct REPO_READ followed by a REPO_READ through
    group "dev" is a tie, and the stored row ends up attributed to the
    group: the first-seen attribution ("user", "alice") is overwritten. *)
Lemma tie_overwrites_first_seen :
  (merge Examples.direct_read [] Examples.dev_members).1 !! Examples.k1
  = Some (mkEff "P1" "R1" "a@x.com" "REPO_READ" "user" "alice")
  ∧ (merge Examples.direct_read Examples.dev_read Examples.dev_members).1
      !! Examples.k1
    = Some (mkEff "P1" "R1" "a@x.com" "REPO_READ" "group" "dev").
Proof. split; vm_compute; reflexivity. Qed.

(** C2, amended.  When a later grant for an existing key carries a
    permission equal to the stored one, the stored permission stays and
    the stored source and source_principal are replaced by those of the
    later grant, in the loop over direct rows and in the loop over group
    members alike. *)
Theorem tie_takes_last_attribution :
  (∀ eff lg row r0,
     let email := Py.strip (Py.or_else (row !! "email") "") in
     let key := (Py.get_default row "project_key" "",
                 Py.get_default row "repo_slug" "", email) in
     Py.truthy email = true →
     eff !! key = Some r0 →
     permission r0 = Py.or_else (row !! "permission") "" →
     (direct_step (eff, lg) row).1 !! key
     = Some (mkEff key.1.1 key.1.2 email (permission r0) "user"
                   (Py.get_default row "principal" "")))
  ∧ (∀ eff lg row group perm m r0,
       let email := Py.strip (Py.or_else (m !! "email") "") in
       let key := (Py.get_default row "project_key" "",
                   Py.get_default row "repo_slug" "", email) in
       Py.truthy email = true →
       eff !! key = Some r0 →
       permission r0 = perm →
       (member_step row group perm (eff, lg) m).1 !! key
       = Some (mkEff key.1.1 key.1.2 email (permission r0) "group" group)).
Proof.
  split.
  - intros eff lg row r0 email key Hem Hr0 Hperm. unfold direct_step.
    fold email. rewrite Hem. cbn [negb]. fold key. rewrite Hr0.
    cbn [fmap option_fmap option_map]. rewrite <- Hperm.
    pose proof (max_perm_same (permission r0)) as Hs.
    destruct (max_perm _ _) as [p w]. simpl in Hs. subst p.
    cbn [fst]. by rewrite lookup_insert_eq.
  - intros eff lg row group perm m r0 email key Hem Hr0 Hperm.
    unfold member_step. fold email. rewrite Hem. cbn [negb]. fold key.
    rewrite Hr0. cbn [fmap option_fmap option_map]. rewrite <- Hperm.
    pose proof (max_perm_same (permission r0)) as Hs.
    destruct (max_perm _ _) as [p w]. simpl in Hs. subst p.
    cbn [fst]. by rewrite lookup_insert_eq.
Qed.

Lemma tie_takes_last_attribution_witness :
  (member_step (Examples.group_row "P1" "R1" "dev" "REPO_READ") "dev" "REPO_READ"
     (merge Examples.direct_read [] []) (Examples.member_row "dev" "alice" "a@x.com")).1
    !! Examples.k1
  = Some (mkEff "P1" "R1" "a@x.com" "REPO_READ" "group" "dev").
Proof.
  exact (proj2 tie_takes_last_attribution
           (merge Examples.direct_read [] []).1 (merge Examples.direct_read [] []).2
           (Examples.group_row "P1" "R1" "dev" "REPO_READ") "dev" "REPO_READ"
           (Examples.member_row "dev" "alice" "a@x.com")
           (mkEff "P1" "R1" "a@x.com" "REPO_READ" "user" "alice")
           eq_refl eq_refl eq_refl).
Defined.

(** C5, as it fails.  The first grant for a key carries a permission
    string outside the order: nothing is compared, nothing is logged, and
    the string is stored and written. *)
Lemma first_unknown_is_accepted :
  expand Examples.owner_only [] [] false
  = mkResult (Some [mkEff "P1" "R1" "a@x.com" "REPO_OWNER" "user" "alice"]) [].
Proof. vm_compute. reflexivity. Qed.

(** C5, amended.  A grant whose permission string is not one of
    REPO_READ, REPO_WRITE, REPO_ADMIN, folded into a key that already
    holds a permission, leaves that permission in place and logs one
    warning; the step returns normally.  This holds in both loops. *)
Theorem unknown_permission_keeps_stored :
  (∀ cur new, ¬ known new →
     max_perm (Some cur) new = (cur, [unknown_permission new]))
  ∧ (∀ eff lg row r0,
       let email := Py.strip (Py.or_else (row !! "email") "") in
       let key := (Py.get_default row "project_key" "",
                   Py.get_default row "repo_slug" "", email) in
       let perm := Py.or_else (row !! "permission") "" in
       Py.truthy email = true →
       eff !! key = Some r0 →
       ¬ known perm →
       direct_step (eff, lg) row
       = (<[key := mkEff key.1.1 key.1.2 email (permission r0) "user"
                         (Py.get_default row "principal" "")]> eff,
          lg ++ [unknown_permission perm]))
  ∧ (∀ eff lg row group perm m r0,
       let email := Py.strip (Py.or_else (m !! "email") "") in
       let key := (Py.get_default row "project_key" "",
                   Py.get_default row "repo_slug" "", email) in
       Py.truthy email = true →
       eff !! key = Some r0 →
       ¬ known perm →
       member_step row group perm (eff, lg) m
       = (<[key := mkEff key.1.1 key.1.2 email (permission r0) "group" group]> eff,
          lg ++ [unknown_permission perm])).
Proof.
  split; [exact max_perm_unknown_new|]. split.
  - intros eff lg row r0 email key perm Hem Hr0 Hun. unfold direct_step.
    fold email. rewrite Hem. cbn [negb]. fold key. rewrite Hr0.
    cbn [fmap option_fmap option_map]. fold perm.
    by rewrite (max_perm_unknown_new _ _ Hun).
  - intros eff lg row group perm m r0 email key Hem Hr0 Hun.
    unfold member_step. fold email. rewrite Hem. cbn [negb]. fold key.
    rewrite Hr0. cbn [fmap option_fmap option_map].
    by rewrite (max_perm_unknown_new _ _ Hun).
Qed.

Lemma unknown_permission_keeps_stored_witness :
  direct_step (merge Examples.direct_read [] [])
              (Examples.direct_row "P1" "R1" "alice" "a@x.com" "REPO_OWNER")
  = (<[Examples.k1 := mkEff "P1" "R1" "a@x.com" "REPO_READ" "user" "alice"]>
       (merge Examples.direct_read [] []).1,
     (merge Examples.direct_read [] []).2 ++ [unknown_permission "REPO_OWNER"]).
Proof.
  refine (proj1 (proj2 unknown_permission_keeps_stored)
            (merge Examples.direct_read [] []).1 (merge Examples.direct_read [] []).2
            (Examples.direct_row "P1" "R1" "alice" "a@x.com" "REPO_OWNER")
            (mkEff "P1" "R1" "a@x.com" "REPO_READ" "user" "alice")
            eq_refl eq_refl _).
  apply (bool_decide_unpack _). vm_compute. exact I.
Defined.

(** Once a key holds a permission outside the order, no later grant
    changes it. *)
Lemma fold_unknown_sticks gs eff k r :
  eff !! k = Some r → ¬ known (permission r) →
  ∃ r', foldl apply_grant eff gs !! k = Some r' ∧ permission r' = permission r.
Proof.
  revert eff r. induction gs as [|g gs IH]; intros eff r Hr Hun; simpl.
  - eauto.
  - destruct (decide (g_key g = k)) as [<-|Hne].
    + pose proof (apply_grant_lookup_eq eff g) as Hg.
      rewrite Hr in Hg. cbn [fmap option_fmap option_map] in Hg.
      rewrite (max_perm_unknown_cur _ _ Hun) in Hg. cbn [fst] in Hg.
      destruct (IH _ _ Hg Hun) as (r' & Hr' & Hp). eauto.
    + apply (IH _ r); [|done]. by rewrite apply_grant_lookup_ne.
Qed.

(** C9.  If the first grant folded for a key carries a permission string
    outside the order, [max_perm(None, p)] returns it without a warning,
    no later grant for the key replaces it, and the row written for the
    key carries the string as it came. *)
Theorem unknown_first_grant_sticks d gp gm pre g post :
  grants d gp gm = pre ++ g :: post →
  (∀ g', g' ∈ pre → g_key g' ≠ g_key g) →
  ¬ known (g_perm g) →
  max_perm None (g_perm g) = (g_perm g, [])
  ∧ (∀ q, (max_perm (Some (g_perm g)) q).1 = g_perm g)
  ∧ (∃ r, (merge d gp gm).1 !! g_key g = Some r ∧ permission r = g_perm g)
  ∧ (∃ rows r, written (expand d gp gm false) = Some rows ∧ r ∈ rows
               ∧ sort_key r = g_key g ∧ permission r = g_perm g).
Proof.
  intros Hgs Hpre Hun.
  assert (∃ r, (merge d gp gm).1 !! g_key g = Some r
               ∧ permission r = g_perm g) as (r & Hr & Hp).
  { rewrite merge_fst, Hgs, foldl_app. simpl.
    pose proof (proj2 (fold_lookup_None pre (g_key g)) Hpre) as Hnone.
    pose proof (apply_grant_lookup_eq (foldl apply_grant ∅ pre) g) as Hg.
    rewrite Hnone in Hg. cbn [fmap option_fmap option_map] in Hg.
    rewrite max_perm_None in Hg. cbn [fst] in Hg.
    destruct (fold_unknown_sticks post _ _ _ Hg Hun) as (r & Hr & Hp). eauto. }
  split; [done|]. split.
  { intros q. by rewrite (max_perm_unknown_cur _ _ Hun). }
  split; [eauto|].
  unfold expand. destruct (merge d gp gm) as [eff lg] eqn:E. simpl in *.
  exists (out_rows eff), r. split; [done|].
  split; [apply elem_of_out_rows; eauto|]. split; [|done].
  pose proof (merge_fst d gp gm) as F. rewrite E in F. simpl in F. subst eff.
  by eapply fold_sort_key.
Qed.

Lemma unknown_first_grant_sticks_witness :
  ∃ r, (merge Examples.owner_first Examples.dev_write Examples.dev_members).1
         !! Examples.k1 = Some r
       ∧ permission r = "REPO_OWNER".
Proof.
  refine (proj1 (proj2 (proj2 (unknown_first_grant_sticks
            Examples.owner_first Examples.dev_write Examples.dev_members
            [] (mkGrant Examples.k1 "REPO_OWNER" "user" "alice")
            [mkGrant Examples.k1 "REPO_READ" "user" "alice";
             mkGrant Examples.k1 "REPO_WRITE" "group" "dev"] _ _ _)))).
  - vm_compute. reflexivity.
  - intros g' Hg'. by apply elem_of_nil in Hg'.
  - apply (bool_decide_unpack _). vm_compute. exact I.
Defined.

(** ** Groups without members, members without address *)

Lemma bind_filter_nil {A B} (P : A → Prop) `{!∀ x, Decision (P x)}
      (f : A → list B) (l : list A) :
  (∀ x, x ∈ l → ¬ P x → f x = []) → l ≫= f = filter P l ≫= f.
Proof.
  induction l as [|x l IH]; intros Hl; [done|].
  rewrite filter_cons, bind_cons.
  rewrite IH by (intros y Hy; apply Hl; by right).
  case_decide as HP; [by rewrite bind_cons|].
  rewrite (Hl x); [done|by left|done].
Qed.

Lemma no_members_count_app g l1 l2 :
  no_members_count g (l1 ++ l2) = no_members_count g l1 + no_members_count g l2.
Proof. unfold no_members_count. by rewrite filter_app, length_app. Qed.

Lemma no_members_count_max_perm g prev perm :
  no_members_count g (max_perm prev perm).2 = 0.
Proof.
  unfold max_perm. destruct prev as [cur|]; [|done].
  destruct (Py.index cur PERM_ORDER), (Py.index perm PERM_ORDER); done.
Qed.

Lemma direct_step_count g st row :
  no_members_count g (direct_step st row).2 = no_members_count g st.2.
Proof.
  destruct st as [eff lg]. unfold direct_step.
  destruct (Py.truthy _); cbn [negb].
  - pose proof (no_members_count_max_perm g
      (permission <$> eff !! (Py.get_default row "project_key" "",
                               Py.get_default row "repo_slug" "",
                               Py.strip (Py.or_else (row !! "email") "")))
      (Py.or_else (row !! "permission") "")) as Hc.
    destruct (max_perm _ _) as [p w]. cbn [snd] in *.
    rewrite no_members_count_app. lia.
  - cbn [snd]. rewrite no_members_count_app. done.
Qed.

Lemma member_step_count g row group perm st m :
  no_members_count g (member_step row group perm st m).2
  = no_members_count g st.2.
Proof.
  destruct st as [eff lg]. unfold member_step.
  destruct (Py.truthy _); cbn [negb]; [|done].
  pose proof (no_members_count_max_perm g
    (permission <$> eff !! (Py.get_default row "project_key" "",
                             Py.get_default row "repo_slug" "",
                             Py.strip (Py.or_else (m !! "email") "")))
    perm) as Hc.
  destruct (max_perm _ _) as [p w]. cbn [snd] in *.
  rewrite no_members_count_app. lia.
Qed.

Lemma foldl_count {A} (g : string) (step : State → A → State) (l : list A)
      (st : State) :
  (∀ st x, no_members_count g (step st x).2 = no_members_count g st.2) →
  no_members_count g (foldl step st l).2 = no_members_count g st.2.
Proof.
  intros Hs. revert st. induction l as [|x l IH]; intros st; simpl; [done|].
  by rewrite IH, Hs.
Qed.

Lemma no_members_inj g g' : no_members g' = no_members g → g' = g.
Proof. by intros [= ->]. Qed.

Lemma group_step_count g mbg st row :
  Py.truthy g = true → default [] (mbg !! g) = [] →
  no_members_count g (group_step mbg st row).2
  = no_members_count g st.2
    + (if decide (Py.or_else (row !! "principal") "" = g) then 1 else 0).
Proof.
  intros Hg Hnone. unfold group_step.
  set (group := Py.or_else (row !! "principal") "").
  destruct (Py.truthy group) eqn:Hgroup; cbn [negb].
  - destruct (default [] (mbg !! group)) as [|m ms] eqn:Hms.
    + simpl. rewrite no_members_count_app. f_equal.
      unfold no_members_count. rewrite filter_cons, filter_nil.
      case_decide as H1; case_decide as H2; try done.
      * by apply no_members_inj in H1.
      * by subst.
    + rewrite foldl_count by (intros; apply member_step_count).
      case_decide as H2; [|lia]. rewrite H2, Hnone in Hms. done.
  - case_decide as H2; [|lia]. congruence.
Qed.

Lemma merge_count g d gp gm :
  Py.truthy g = true → default [] (load_members gm !! g) = [] →
  no_members_count g (merge d gp gm).2
  = length (filter (λ row, Py.or_else (row !! "principal") "" = g) gp).
Proof.
  intros Hg Hnone. unfold merge.
  assert (no_members_count g (foldl direct_step (∅, []) d).2 = 0) as Hd.
  { by rewrite foldl_count by (intros; apply direct_step_count). }
  revert Hd. generalize (foldl direct_step (∅, []) d). intros st Hst.
  assert (∀ st, no_members_count g
                  (foldl (group_step (load_members gm)) st gp).2
                = no_members_count g st.2
                  + length (filter (λ row, Py.or_else (row !! "principal") "" = g) gp))
    as Hgen.
  { clear st Hst. induction gp as [|row gp IH]; intros st; simpl; [lia|].
    rewrite IH, group_step_count by done. rewrite filter_cons.
    case_decide; simpl; lia. }
  rewrite Hgen. lia.
Qed.

(** Every stored row is attributed to one of the grants folded. *)
Lemma fold_attribution gs k r :
  foldl apply_grant ∅ gs !! k = Some r →
  ∃ g, g ∈ gs ∧ g_source g = source r ∧ g_principal g = source_principal r.
Proof.
  induction gs as [|g gs IH] using rev_ind; simpl.
  - by rewrite lookup_empty.
  - rewrite foldl_apply_grant_snoc. destruct (decide (g_key g = k)) as [<-|Hne].
    + rewrite apply_grant_lookup_eq. intros [= <-]. exists g.
      split; [apply elem_of_app; right; by left|done].
    + rewrite apply_grant_lookup_ne by done. intros (g' & Hin & Hs)%IH.
      exists g'. split; [apply elem_of_app; by left|done].
Qed.

(** A grant made through a group comes from a group that has members. *)
Lemma group_grant_has_members d gp gm g :
  g ∈ grants d gp gm → g_source g = "group" →
  default [] (load_members gm !! g_principal g) ≠ [].
Proof.
  unfold grants.
  intros [(row & _ & Hg)%list_elem_of_omap
         | (row & Hg & _)%list_elem_of_bind]%elem_of_app Hsrc.
  - unfold direct_grant in Hg. destruct (Py.truthy _); [|done].
    injection Hg as <-. done.
  - unfold group_grants in Hg. destruct (Py.truthy _); [|by apply elem_of_nil in Hg].
    apply list_elem_of_omap in Hg as (m & Hm & Hg).
    unfold member_grant in Hg. destruct (Py.truthy _); [|done].
    injection Hg as <-. simpl. intros Hnil. rewrite Hnil in Hm.
    by apply elem_of_nil in Hm.
Qed.

Lemma no_listed_members gm g :
  (∀ m, m ∈ gm → Py.get_default m "group" "" ≠ g) →
  default [] (load_members gm !! g) = [].
Proof.
  intros Hno. rewrite load_members_lookup. destruct (Py.truthy g); [|done].
  by apply filter_none.
Qed.

(** C6, as it fails.  Group "dev" has grants on two repositories and no
    listed member: the warning is logged twice for the one group. *)
Lemma no_members_warned_per_grant :
  no_members_count "dev" (log (expand [] Examples.dev_two_repos [] false)) = 2
  ∧ written (expand [] Examples.dev_two_repos [] false) = Some [].
Proof. split; vm_compute; reflexivity. Qed.

(** C6, amended.  A group with repository grants and no listed member
    contributes no effective row: the result is the one obtained without
    the group's grant rows, and no stored row is attributed to the group.
    The warning is logged once for each grant row of the group. *)
Theorem group_without_members d gp gm g :
  Py.truthy g = true →
  (∀ m, m ∈ gm → Py.get_default m "group" "" ≠ g) →
  (merge d gp gm).1
  = (merge d (filter (λ row, Py.or_else (row !! "principal") "" ≠ g) gp) gm).1
  ∧ (∀ k r, (merge d gp gm).1 !! k = Some r →
            ¬ (source r = "group" ∧ source_principal r = g))
  ∧ no_members_count g (merge d gp gm).2
    = length (filter (λ row, Py.or_else (row !! "principal") "" = g) gp).
Proof.
  intros Hg Hno. pose proof (no_listed_members _ _ Hno) as Hnil.
  split; [|split].
  - rewrite !merge_fst. unfold grants. do 2 f_equal.
    apply bind_filter_nil. intros row _ Hrow.
    apply dec_stable in Hrow. unfold group_grants.
    rewrite Hrow, Hg, Hnil. done.
  - intros k r Hr [Hsrc Hpr]. rewrite merge_fst in Hr.
    apply fold_attribution in Hr as (g' & Hin & Hs & Hp).
    eapply group_grant_has_members; [done|congruence|].
    by rewrite Hp, Hpr.
  - by apply merge_count.
Qed.

Lemma group_without_members_witness :
  no_members_count "dev" (merge Examples.direct_read Examples.dev_two_repos []).2
  = length (filter (λ row, Py.or_else (row !! "principal") "" = "dev")
                   Examples.dev_two_repos).
Proof.
  refine (proj2 (proj2 (group_without_members
            Examples.direct_read Examples.dev_two_repos [] "dev" eq_refl _))).
  intros m Hm. by apply elem_of_nil in Hm.
Defined.

(** C7, at the failing input.  The only member of "dev" has no address:
    the grant is dropped and nothing is logged, where the direct loop
    logs a warning for a row without address. *)
Theorem member_without_email_is_silent :
  expand [] Examples.dev_write Examples.dev_no_email false = mkResult (Some []) []
  ∧ log (expand [Examples.direct_row "P1" "R1" "bob" "" "REPO_WRITE"] [] [] false)
    = [skipping_direct (Examples.direct_row "P1" "R1" "bob" "" "REPO_WRITE")].
Proof. split; vm_compute; reflexivity. Qed.

(** ** apply_permissions, one entry at a time *)

Lemma bb_read : BITBUCKET_TO_GITHUB !! "REPO_READ" = Some "pull".
Proof. reflexivity. Qed.

Lemma or_else_missing v d : Py.nonempty v = None → Py.or_else v d = d.
Proof. destruct v as [[|c s]|]; simpl; done. Qed.

(** C10.  A row whose permission field is missing or empty passes the
    permission check: it is read as REPO_READ, mapped to "pull", and goes
    on to the resolution of the login and the read-compare-write step,
    exactly as a row that says REPO_READ. *)
Theorem missing_permission_is_read {G : Type} `{Github G}
        (email_to_login : gmap string string) (default_missing : option string)
        (dry_run : bool) (full_name : string) (gh : G) (e : Row) :
  Py.nonempty (e !! "permission") = None →
  let email := Py.lower (Py.strip (Py.or_else (e !! "email") "")) in
  Py.or_else (e !! "permission") "REPO_READ" = "REPO_READ"
  ∧ Py.nonempty (BITBUCKET_TO_GITHUB !! "REPO_READ") = Some "pull"
  ∧ entry_step email_to_login default_missing dry_run full_name gh e
    = entry_step email_to_login default_missing dry_run full_name gh
                 (<["permission" := "REPO_READ"]> e)
  ∧ entry_step email_to_login default_missing dry_run full_name gh e
    = match Py.nonempty (email_to_login !! email) with
      | Some login => read_compare_write dry_run full_name login "pull" email gh
      | None =>
          match Py.nonempty default_missing with
          | Some login =>
              let '(gh', tr) :=
                read_compare_write dry_run full_name login "pull" email gh in
              (gh', Log (no_mapping_default email login) :: tr)
          | None => (gh, [Log (no_mapping_skip email)])
          end
      end.
Proof.
  intros Hp email. pose proof (or_else_missing _ "REPO_READ" Hp) as Hread.
  split; [done|]. split; [reflexivity|]. split.
  - unfold entry_step. rewrite Hread.
    rewrite lookup_insert_eq, (lookup_insert_ne _ "permission" "email") by done.
    reflexivity.
  - unfold entry_step. rewrite Hread. fold email.
    rewrite bb_read. reflexivity.
Qed.

Lemma missing_permission_is_read_witness :
  entry_step ∅ (Some "svc") false "acme/P1-R1" Examples.acme Examples.no_permission
  = entry_step ∅ (Some "svc") false "acme/P1-R1" Examples.acme
               (<["permission" := "REPO_READ"]> Examples.no_permission).
Proof.
  exact (proj1 (proj2 (proj2 (missing_permission_is_read
           ∅ (Some "svc") false "acme/P1-R1" Examples.acme Examples.no_permission
           eq_refl)))).
Defined.

(** C8, as it fails.  A row with an address outside the mapping and a
    permission string that has no GitHub level, as [expand] writes for a
    first grant of that kind: a default login is configured, yet the row
    is skipped for its permission, the default login is not used and no
    warning about the mapping is logged. *)
Lemma default_login_not_reached :
  entry_step ∅ (Some "svc") false "acme/P1-R1" Examples.acme
             (Examples.eff_row "P1" "R1" "a@x.com" "REPO_OWNER")
  = (Examples.acme, [Log (unknown_bb_perm "REPO_OWNER" "a@x.com")])
  ∧ written (expand Examples.owner_only [] [] false)
    = Some [mkEff "P1" "R1" "a@x.com" "REPO_OWNER" "user" "alice"].
Proof. split; vm_compute; reflexivity. Qed.

(** C8, amended.  An entry whose address is not in the mapping: without a
    default login it is skipped, with one warning and no call about the
    identity; with a default login and a permission that maps, the
    warning is logged and the read-compare-write step runs for the
    default login; with a permission that does not map, the entry is
    skipped for its permission before any login is looked up. *)
Theorem unmapped_email {G : Type} `{Github G}
        (email_to_login : gmap string string) (default_missing : option string)
        (dry_run : bool) (full_name : string) (gh : G) (e : Row) :
  let email := Py.lower (Py.strip (Py.or_else (e !! "email") "")) in
  let bb_perm := Py.or_else (e !! "permission") "REPO_READ" in
  let run := entry_step email_to_login default_missing dry_run full_name gh e in
  email_to_login !! email = None →
  (Py.nonempty default_missing = None →
     run.1 = gh
     ∧ (∃ w, run.2 = [Log w] ∧ is_warning w = true)
     ∧ filter (λ ev, is_identity_call ev = true) run.2 = []
     ∧ (∀ gh_perm, Py.nonempty (BITBUCKET_TO_GITHUB !! bb_perm) = Some gh_perm →
                   run = (gh, [Log (no_mapping_skip email)])))
  ∧ (∀ login gh_perm,
       Py.nonempty default_missing = Some login →
       Py.nonempty (BITBUCKET_TO_GITHUB !! bb_perm) = Some gh_perm →
       let next :=
         read_compare_write dry_run full_name login gh_perm email gh in
       run = (next.1, Log (no_mapping_default email login) :: next.2)
       ∧ CallGetPermission full_name login ∈ run.2)
  ∧ (Py.nonempty (BITBUCKET_TO_GITHUB !! bb_perm) = None →
     run = (gh, [Log (unknown_bb_perm bb_perm email)])).
Proof.
  intros email bb_perm run Hmap. subst run. unfold entry_step.
  fold email bb_perm. rewrite Hmap. cbn [Py.nonempty]. split; [|split].
  - intros ->.
    destruct (Py.nonempty (BITBUCKET_TO_GITHUB !! bb_perm)) as [p|] eqn:Hp;
      cbn [fst snd].
    + split; [done|]. split; [by eexists|]. split; [done|].
      by intros ? [= <-].
    + split; [done|]. split; [by eexists|]. split; [done|]. done.
  - intros login gh_perm -> ->. cbn zeta.
    destruct (read_compare_write _ _ _ _ _ _) as [gh' tr] eqn:E. cbn [fst snd].
    split; [done|]. right.
    unfold read_compare_write in E.
    destruct (negb _); [by injection E as <- <-; left|].
    destruct dry_run; [by injection E as <- <-; left|].
    destruct (add_to_collaborators _ _ _ _); injection E as <- <-; by left.
  - by intros ->.
Qed.

Lemma unmapped_email_witness :
  entry_step ∅ None false "acme/P1-R1" Examples.acme
             (Examples.eff_row "P1" "R1" "a@x.com" "REPO_WRITE")
  = (Examples.acme, [Log (no_mapping_skip "a@x.com")])
  ∧ entry_step ∅ (Some "svc") false "acme/P1-R1" Examples.acme
               (Examples.eff_row "P1" "R1" "a@x.com" "REPO_WRITE")
    = ((read_compare_write false "acme/P1-R1" "svc" "push" "a@x.com"
                           Examples.acme).1,
       Log (no_mapping_default "a@x.com" "svc")
         :: (read_compare_write false "acme/P1-R1" "svc" "push" "a@x.com"
                                Examples.acme).2).
Proof.
  split.
  - exact (proj2 (proj2 (proj2 (proj1 (unmapped_email
             ∅ None false "acme/P1-R1" Examples.acme
             (Examples.eff_row "P1" "R1" "a@x.com" "REPO_WRITE") eq_refl)
             eq_refl)))
           "push" eq_refl).
  - exact (proj1 (proj1 (proj2 (unmapped_email
             ∅ (Some "svc") false "acme/P1-R1" Examples.acme
             (Examples.eff_row "P1" "R1" "a@x.com" "REPO_WRITE") eq_refl))
             "svc" "push" eq_refl eq_refl)).
Defined.

(** ** apply_permissions, twice *)

Section runs.
Context {G : Type} `{Github G}.
Variables (etl : gmap string string) (dm : option string).

Lemma for_each_acc {A} (body : G → A → G * list Event) (l : list A) gh tr :
  foldl (λ (st : G * list Event) (x : A),
           let '(gh', t) := body st.1 x in (gh', st.2 ++ t)) (gh, tr) l
  = ((for_each body l gh).1, tr ++ (for_each body l gh).2).
Proof.
  unfold for_each. revert gh tr.
  induction l as [|x l IH]; intros gh tr; simpl.
  - by rewrite app_nil_r.
  - destruct (body gh x) as [g1 t1]. rewrite (IH g1 (tr ++ t1)).
    rewrite (IH g1 t1). simpl. by rewrite app_assoc.
Qed.

Lemma for_each_nil {A} (body : G → A → G * list Event) gh :
  for_each body [] gh = (gh, []).
Proof. reflexivity. Qed.

Lemma for_each_cons {A} (body : G → A → G * list Event) x l gh :
  for_each body (x :: l) gh
  = ((for_each body l (body gh x).1).1,
     (body gh x).2 ++ (for_each body l (body gh x).1).2).
Proof.
  unfold for_each at 1. simpl. destruct (body gh x) as [g1 t1]. simpl.
  apply for_each_acc.
Qed.

Lemma writes_app t1 t2 : writes (t1 ++ t2) = writes t1 ++ writes t2.
Proof. unfold writes. by rewrite filter_app. Qed.

Lemma no_failed_write_app t1 t2 :
  no_failed_write (t1 ++ t2) = true
  ↔ no_failed_write t1 = true ∧ no_failed_write t2 = true.
Proof.
  unfold no_failed_write. rewrite forallb_app. apply andb_true_iff.
Qed.

(** The read-compare-write step when nothing is to be done. *)
Lemma rcw_satisfied dry full login gh_perm email gh :
  needs_update gh full login gh_perm = false →
  read_compare_write dry full login gh_perm email gh
  = (gh, [CallGetPermission full login;
          Log (already_has login gh_perm full)]).
Proof. intros Hn. unfold read_compare_write. by rewrite Hn. Qed.

(** A write is issued only outside dry-run and only when the level
    read, once normalised, is not the level wanted. *)
Lemma rcw_write dry full login gh_perm email gh ev :
  ev ∈ (read_compare_write dry full login gh_perm email gh).2 →
  is_write ev = true →
  ev = CallAdd full login gh_perm ∧ dry = false
  ∧ needs_update gh full login gh_perm = true.
Proof.
  unfold read_compare_write.
  destruct (needs_update gh full login gh_perm); cbn [negb].
  - destruct dry.
    + intros Hin Hw. cbn [snd] in Hin.
      repeat (apply elem_of_cons in Hin as [->|Hin]); try discriminate.
      by apply elem_of_nil in Hin.
    + destruct (add_to_collaborators _ _ _ _); intros Hin Hw;
        cbn [snd] in Hin;
        repeat (apply elem_of_cons in Hin as [->|Hin]); try discriminate;
        try done; by apply elem_of_nil in Hin.
  - intros Hin Hw. cbn [snd] in Hin.
    repeat (apply elem_of_cons in Hin as [->|Hin]); try discriminate.
    by apply elem_of_nil in Hin.
Qed.

Lemma needs_update_true gh full login gh_perm :
  needs_update gh full login gh_perm = true
  ↔ ¬ ∃ c, get_collaborator_permission gh full login = Returned (Some c)
           ∧ Py.truthy c = true ∧ normalize c = gh_perm.
Proof.
  unfold needs_update.
  destruct (get_collaborator_permission gh full login) as [[c|]|].
  - cbn [Py.nonempty]. destruct (Py.truthy c) eqn:Hc.
    + rewrite negb_true_iff, bool_decide_eq_false. split.
      * intros Hne (c' & [= <-] & _ & Hn). done.
      * intros Hno Hn. apply Hno. eauto.
    + split; [|done]. intros _ (c' & [= <-] & Hc' & _). congruence.
  - cbn [Py.nonempty]. split; [|done]. intros _ (c' & [=] & _).
  - split; [|done]. intros _ (c' & [=] & _).
Qed.

(** [entry_step] through [resolve]. *)
Lemma entry_step_unresolved dry full gh e :
  resolve etl dm e = None →
  ∃ w, entry_step etl dm dry full gh e = (gh, [Log w]) ∧ is_warning w = true.
Proof.
  unfold resolve, entry_step.
  destruct (Py.nonempty (BITBUCKET_TO_GITHUB !! _)); [|by eexists].
  destruct (Py.nonempty (etl !! _)); [done|].
  destruct (Py.nonempty dm); [done|]. by eexists.
Qed.

Lemma entry_step_resolved dry full gh e login gh_perm :
  resolve etl dm e = Some (login, gh_perm) →
  ∃ email pre,
    entry_step etl dm dry full gh e
    = ((read_compare_write dry full login gh_perm email gh).1,
       pre ++ (read_compare_write dry full login gh_perm email gh).2)
    ∧ writes pre = [] ∧ no_failed_write pre = true
    ∧ ∃ bb_perm, BITBUCKET_TO_GITHUB !! bb_perm = Some gh_perm.
Proof.
  unfold resolve, entry_step.
  set (email := Py.lower _). set (bb_perm := Py.or_else _ _).
  destruct (BITBUCKET_TO_GITHUB !! bb_perm) as [p|] eqn:Hbb; [|done].
  cbn [Py.nonempty]. destruct (Py.truthy p) eqn:Hp; [|done].
  destruct (Py.nonempty (etl !! email)) as [l|].
  - intros [= <- <-]. exists email, [].
    repeat split; [by destruct (read_compare_write _ _ _ _ _ _)|eauto].
  - destruct (Py.nonempty dm) as [l|]; [|done].
    intros [= <- <-]. exists email, [Log (no_mapping_default email l)].
    repeat split; [by destruct (read_compare_write _ _ _ _ _ _)|eauto].
Qed.

(** Second run, one entry: nothing to do, nothing written. *)
Lemma entry_step_satisfied dry full gh e :
  satisfied etl dm gh full e →
  (entry_step etl dm dry full gh e).1 = gh
  ∧ writes (entry_step etl dm dry full gh e).2 = [].
Proof.
  intros Hsat. destruct (resolve etl dm e) as [[login p]|] eqn:Hr.
  - destruct (entry_step_resolved dry full gh e _ _ Hr)
      as (email & pre & -> & Hpre & _).
    rewrite (rcw_satisfied _ _ _ _ _ _ (Hsat _ _ Hr)). cbn [fst snd].
    split; [done|]. by rewrite writes_app, Hpre.
  - destruct (entry_step_unresolved dry full gh e Hr) as (w & -> & _). done.
Qed.

Lemma entries_satisfied dry full es gh :
  (∀ e, e ∈ es → satisfied etl dm gh full e) →
  (for_each (entry_step etl dm dry full) es gh).1 = gh
  ∧ writes (for_each (entry_step etl dm dry full) es gh).2 = [].
Proof.
  induction es as [|e es IH]; intros Hsat; [done|].
  rewrite for_each_cons. cbn [fst snd].
  destruct (entry_step_satisfied dry full gh e) as [-> Hw];
    [apply Hsat; by left|].
  destruct IH as [-> Hw']; [intros e' He'; apply Hsat; by right|].
  split; [done|]. by rewrite writes_app, Hw, Hw'.
Qed.

Lemma repo_step_satisfied dry gh full es :
  (get_repo gh full ≠ Raised → ∀ e, e ∈ es → satisfied etl dm gh full e) →
  (repo_step etl dm dry gh (full, es)).1 = gh
  ∧ writes (repo_step etl dm dry gh (full, es)).2 = [].
Proof.
  intros Hsat. unfold repo_step.
  destruct (get_repo gh full) as [u|] eqn:Hrepo; [|done].
  destruct (entries_satisfied dry full es gh) as [Hg Hw]; [by apply Hsat|].
  destruct (for_each _ es gh) as [gh' tr]. cbn [fst snd] in *.
  split; [done|]. by rewrite writes_app, Hw.
Qed.

Lemma items_satisfied dry items gh :
  (∀ full es, (full, es) ∈ items → get_repo gh full ≠ Raised →
              ∀ e, e ∈ es → satisfied etl dm gh full e) →
  (for_each (repo_step etl dm dry) items gh).1 = gh
  ∧ writes (for_each (repo_step etl dm dry) items gh).2 = [].
Proof.
  induction items as [|[full es] items IH]; intros Hsat; [done|].
  rewrite for_each_cons. cbn [fst snd].
  destruct (repo_step_satisfied dry gh full es) as [-> Hw];
    [apply Hsat; by left|].
  destruct IH as [-> Hw'].
  { intros f' es' Hin. apply Hsat. by right. }
  split; [done|]. by rewrite writes_app, Hw, Hw'.
Qed.

End runs.

Section first_run.
Context {G : Type} `{Github G} `{!GithubLaws G}.
Variables (etl : gmap string string) (dm : option string).

Lemma needs_update_frame gh gh' full login gh_perm full' login' p' :
  add_to_collaborators gh full login gh_perm = Returned gh' →
  (full', login') ≠ (full, login) →
  needs_update gh' full' login' p' = needs_update gh full' login' p'.
Proof.
  intros Hadd Hne. unfold needs_update.
  by rewrite (add_frame _ _ _ _ _ _ _ Hadd Hne).
Qed.

(** First run, one entry: afterwards the entry is satisfied, entries
    that do not compete with it stay satisfied, and the repositories
    reachable are the same. *)
Lemma entry_step_first full gh e :
  let run := entry_step etl dm false full gh e in
  no_failed_write run.2 = true →
  satisfied etl dm run.1 full e
  ∧ (∀ f' e', satisfied etl dm gh f' e' → compatible etl dm full e f' e' →
              satisfied etl dm run.1 f' e')
  ∧ (∀ f', get_repo run.1 f' = get_repo gh f').
Proof.
  intros run Hok. subst run.
  destruct (resolve etl dm e) as [[login p]|] eqn:Hr.
  2: { destruct (entry_step_unresolved etl dm false full gh e Hr)
         as (w & -> & _). cbn [fst].
       split; [|by split]. intros l q Hq. congruence. }
  destruct (entry_step_resolved etl dm false full gh e _ _ Hr)
    as (email & pre & Hstep & _ & _ & bb & Hbb).
  rewrite Hstep in Hok |- *. cbn [fst snd] in *.
  apply no_failed_write_app in Hok as [_ Hok].
  unfold read_compare_write in *.
  destruct (needs_update gh full login p) eqn:Hn; cbn [negb fst snd] in *.
  - destruct (add_to_collaborators gh full login p) as [gh'|] eqn:Hadd;
      cbn [fst snd] in *; [|discriminate].
    split; [|split].
    + intros l q Hq. rewrite Hr in Hq. injection Hq as <- <-.
      by eapply add_then_read.
    + intros f' e' Hsat Hcompat l' p' Hr'.
      destruct (decide ((f', l') = (full, login))) as [[= -> ->]|Hne].
      * rewrite <- (Hcompat eq_refl _ _ _ Hr Hr'). by eapply add_then_read.
      * rewrite (needs_update_frame _ _ _ _ _ _ _ _ Hadd Hne). by apply Hsat.
    + intros f'. by eapply add_keeps_repos.
  - split; [|by split]. intros l q Hq. rewrite Hr in Hq.
    by injection Hq as <- <-.
Qed.

Lemma entries_first full es gh :
  let run := for_each (entry_step etl dm false full) es gh in
  no_failed_write run.2 = true →
  (∀ e1 e2, e1 ∈ es → e2 ∈ es → compatible etl dm full e1 full e2) →
  (∀ e, e ∈ es → satisfied etl dm run.1 full e)
  ∧ (∀ f' e', satisfied etl dm gh f' e' →
              (∀ e, e ∈ es → compatible etl dm full e f' e') →
              satisfied etl dm run.1 f' e')
  ∧ (∀ f', get_repo run.1 f' = get_repo gh f').
Proof.
  revert gh. induction es as [|e es IH]; intros gh run Hok Hpair; subst run.
  { rewrite for_each_nil. cbn [fst]. split; [|by split].
    intros e He. by apply elem_of_nil in He. }
  rewrite for_each_cons in Hok |- *. cbn [fst snd] in *.
  apply no_failed_write_app in Hok as [Hok1 Hok2].
  destruct (entry_step_first full gh e Hok1) as (Hsat1 & Hfr1 & Hrepo1).
  destruct (IH _ Hok2) as (Hsat2 & Hfr2 & Hrepo2).
  { intros e1 e2 H1 H2. apply Hpair; by right. }
  split; [|split].
  - intros x [->|Hx]%elem_of_cons; [|by apply Hsat2].
    apply Hfr2; [done|]. intros e' He'. apply Hpair; [by right|by left].
  - intros f' e' Hsat Hc. apply Hfr2.
    + apply Hfr1; [done|]. apply Hc. by left.
    + intros x Hx. apply Hc. by right.
  - intros f'. by rewrite Hrepo2, Hrepo1.
Qed.

Lemma repo_step_first gh full es :
  let run := repo_step etl dm false gh (full, es) in
  no_failed_write run.2 = true →
  (∀ e1 e2, e1 ∈ es → e2 ∈ es → compatible etl dm full e1 full e2) →
  (get_repo gh full ≠ Raised → ∀ e, e ∈ es → satisfied etl dm run.1 full e)
  ∧ (∀ f' e', satisfied etl dm gh f' e' →
              (∀ e, e ∈ es → compatible etl dm full e f' e') →
              satisfied etl dm run.1 f' e')
  ∧ (∀ f', get_repo run.1 f' = get_repo gh f').
Proof.
  intros run Hok Hpair. subst run. unfold repo_step in *.
  destruct (get_repo gh full) as [u|] eqn:Hrepo; [|by cbn [fst]].
  pose proof (entries_first full es gh) as Hes. cbn zeta in Hes.
  destruct (for_each _ es gh) as [gh' tr]. cbn [fst snd] in *.
  apply no_failed_write_app in Hok as [_ Hok].
  destruct (Hes Hok Hpair) as (Hsat & Hfr & Hrp). by split.
Qed.

Lemma items_first items gh :
  let run := for_each (repo_step etl dm false) items gh in
  no_failed_write run.2 = true →
  (∀ f1 es1 f2 es2 e1 e2,
     (f1, es1) ∈ items → (f2, es2) ∈ items → e1 ∈ es1 → e2 ∈ es2 →
     compatible etl dm f1 e1 f2 e2) →
  (∀ full es, (full, es) ∈ items → get_repo run.1 full ≠ Raised →
              ∀ e, e ∈ es → satisfied etl dm run.1 full e)
  ∧ (∀ f' e', satisfied etl dm gh f' e' →
              (∀ full es e, (full, es) ∈ items → e ∈ es →
                            compatible etl dm full e f' e') →
              satisfied etl dm run.1 f' e')
  ∧ (∀ f', get_repo run.1 f' = get_repo gh f').
Proof.
  revert gh. induction items as [|[full es] items IH];
    intros gh run Hok Hpair; subst run.
  { rewrite for_each_nil. cbn [fst]. split; [|by split].
    intros f es Hin. by apply elem_of_nil in Hin. }
  rewrite for_each_cons in Hok |- *. cbn [fst snd] in *.
  apply no_failed_write_app in Hok as [Hok1 Hok2].
  destruct (repo_step_first gh full es Hok1) as (Hsat1 & Hfr1 & Hrepo1).
  { intros e1 e2 H1 H2. eapply Hpair; [by left|by left|done..]. }
  destruct (IH _ Hok2) as (Hsat2 & Hfr2 & Hrepo2).
  { intros f1 es1 f2 es2 e1 e2 H1 H2. apply Hpair; by right. }
  split; [|split].
  - intros f es' [[= -> ->]|Hin]%elem_of_cons Hacc e He;
      [|by eapply Hsat2].
    apply Hfr2.
    + apply Hsat1; [|done]. by rewrite <- Hrepo1, <- Hrepo2.
    + intros f' es' e' Hin He'. eapply Hpair; [by right|by left|done..].
  - intros f' e' Hsat Hc. apply Hfr2.
    + apply Hfr1; [done|]. intros x Hx. eapply Hc; [by left|done].
    + intros f es' x Hin Hx. eapply Hc; [by right|done].
  - intros f'. by rewrite Hrepo2, Hrepo1.
Qed.

End first_run.

(** [by_repo]: each list holds the rows of its repository, in file order. *)
Lemma group_by_repo_lookup org rows f :
  default [] (group_by_repo org rows !! f)
  = filter (λ r, full_name_of org r = f) rows.
Proof.
  induction rows as [|r rows IH] using rev_ind.
  - unfold group_by_repo. simpl. by rewrite lookup_empty.
  - unfold group_by_repo in *. rewrite foldl_app. simpl.
    rewrite filter_app, filter_cons, filter_nil.
    destruct (decide (full_name_of org r = f)) as [Heq|Hne].
    + subst f. rewrite lookup_insert_eq. simpl. by rewrite IH.
    + rewrite lookup_insert_ne by done. by rewrite IH, app_nil_r.
Qed.

Global Instance item_le_total : Total item_le.
Proof. intros a b. unfold item_le. apply (total String.le). Qed.

Lemma sorted_items_sorted by_repo : Sorted item_le (sorted_items by_repo).
Proof. apply (Sorted_merge_sort item_le). Qed.

Lemma elem_of_sorted_items org rows f es e :
  (f, es) ∈ sorted_items (group_by_repo org rows) → e ∈ es →
  e ∈ rows ∧ full_name_of org e = f.
Proof.
  unfold sorted_items. rewrite merge_sort_Permutation.
  intros Hin%elem_of_map_to_list He.
  pose proof (group_by_repo_lookup org rows f) as Hl. rewrite Hin in Hl.
  simpl in Hl. subst es. apply list_elem_of_filter in He as [? ?]. done.
Qed.

Lemma consistent_compatible org etl dm rows e1 e2 :
  consistent org etl dm rows = true → e1 ∈ rows → e2 ∈ rows →
  compatible etl dm (full_name_of org e1) e1 (full_name_of org e2) e2.
Proof.
  unfold consistent. intros Hc H1 H2 Hf l p p' Hr1 Hr2.
  rewrite forallb_forall in Hc. apply list_elem_of_In in H1, H2.
  specialize (Hc _ H1). rewrite forallb_forall in Hc. specialize (Hc _ H2).
  unfold same_target in Hc. rewrite Hr1, Hr2 in Hc.
  rewrite bool_decide_eq_true_2 in Hc by done.
  by apply bool_decide_eq_true in Hc.
Qed.

(** The reference GitHub keeps what it is told. *)
Global Instance MemGithub_laws : GithubLaws MemGithub.
Proof.
  split.
  - intros gh gh' f l b p Hb [= <-]. unfold needs_update. simpl.
    rewrite lookup_insert_eq. simpl.
    assert (p = "pull" ∨ p = "push" ∨ p = "admin") as Hp.
    { unfold BITBUCKET_TO_GITHUB in Hb.
      repeat (apply lookup_insert_Some in Hb as [[_ <-]|[_ Hb]]; [by auto|]).
      by rewrite lookup_empty in Hb. }
    destruct Hp as [->|[->| ->]]; reflexivity.
  - intros gh gh' f l p f' l' [= <-] Hne. simpl.
    by rewrite lookup_insert_ne.
  - intros gh gh' f l p f' [= <-]. reflexivity.
Qed.

(** C3, as it fails.  Two addresses without mapping fall back to the
    default login with different levels on one repository: the first run
    writes "pull" then "push", and the second run, against the state the
    first one left, writes both again. *)
Lemma second_run_writes_again :
  let first := apply_permissions Examples.acme "acme" Examples.two_unmapped
                                 None (Some "svc") false in
  no_failed_write first.2 = true
  ∧ writes (apply_permissions first.1 "acme" Examples.two_unmapped
                              None (Some "svc") false).2
    = [CallAdd "acme/P1-R1" "svc" "pull"; CallAdd "acme/P1-R1" "svc" "push"].
Proof. split; vm_compute; reflexivity. Qed.

(** C3, amended.  A write is issued for an entry only outside dry-run and
    only if the level wanted differs from the collaborator's current
    level once normalised (admin to admin, write to push, triage to
    triage, maintain to maintain, read to pull).  If GitHub keeps what it
    is told (after a grant of "pull", "push" or "admin" that returned, a
    read for that repository and login gives a non-empty level that
    normalises to the level granted; reads for other repositories or
    logins are unchanged; so is which repositories can be reached), no
    write of the first run failed, and no two rows ask different levels
    for one login on one repository, then a second run over the same rows
    writes nothing and leaves GitHub as it was. *)
Theorem second_run_writes_nothing {G : Type} `{Github G} :
  (normalize "admin" = "admin" ∧ normalize "write" = "push"
   ∧ normalize "triage" = "triage" ∧ normalize "maintain" = "maintain"
   ∧ normalize "read" = "pull")
  ∧ (∀ etl dm dry full gh e ev,
       ev ∈ (entry_step etl dm dry full gh e).2 → is_write ev = true →
       ∃ login gh_perm,
         resolve etl dm e = Some (login, gh_perm)
         ∧ ev = CallAdd full login gh_perm ∧ dry = false
         ∧ ¬ ∃ c, get_collaborator_permission gh full login = Returned (Some c)
                  ∧ Py.truthy c = true ∧ normalize c = gh_perm)
  ∧ (GithubLaws G →
     ∀ gh org rows mapping_csv default_missing dry_run,
       let first :=
         apply_permissions gh org rows mapping_csv default_missing false in
       let second :=
         apply_permissions first.1 org rows mapping_csv default_missing dry_run in
       consistent org (load_email_to_login mapping_csv) default_missing rows = true →
       no_failed_write first.2 = true →
       writes second.2 = [] ∧ second.1 = first.1).
Proof.
  split; [by repeat split|]. split.
  - intros etl dm dry full gh e ev Hin Hw.
    destruct (resolve etl dm e) as [[login p]|] eqn:Hr.
    + destruct (entry_step_resolved etl dm dry full gh e _ _ Hr)
        as (email & pre & Hstep & Hpre & _).
      rewrite Hstep in Hin. cbn [snd] in Hin.
      apply elem_of_app in Hin as [Hin|Hin].
      * assert (ev ∈ writes pre) as Hin'
          by (unfold writes; by apply list_elem_of_filter).
        rewrite Hpre in Hin'. by apply elem_of_nil in Hin'.
      * destruct (rcw_write _ _ _ _ _ _ _ Hin Hw) as (-> & -> & Hn).
        exists login, p. repeat split; [done..|].
        by apply needs_update_true.
    + destruct (entry_step_unresolved etl dm dry full gh e Hr) as (w & Hs & _).
      rewrite Hs in Hin. apply list_elem_of_singleton in Hin as ->. done.
  - intros Hlaws gh org rows mapping dm dry first second Hcons Hok.
    subst first second. unfold apply_permissions in *.
    set (etl := load_email_to_login mapping) in *.
    set (items := sorted_items (group_by_repo org rows)) in *.
    pose proof (items_first etl dm items gh) as Hfirst. cbn zeta in Hfirst.
    destruct (for_each (repo_step etl dm false) items gh) as [gh1 tr1].
    cbn [fst snd] in *.
    destruct Hfirst as (Hsat & _ & _).
    { done. }
    { intros f1 es1 f2 es2 e1 e2 H1 H2 He1 He2.
      destruct (elem_of_sorted_items _ _ _ _ _ H1 He1) as [Hr1 <-].
      destruct (elem_of_sorted_items _ _ _ _ _ H2 He2) as [Hr2 <-].
      by eapply consistent_compatible. }
    destruct (items_satisfied etl dm dry items gh1 Hsat) as [Hg Hw].
    destruct (for_each (repo_step etl dm dry) items gh1) as [gh2 tr2].
    cbn [fst snd] in *. done.
Qed.

Lemma second_run_writes_nothing_witness :
  let first := apply_permissions Examples.acme "acme" Examples.two_unmapped
                                 Examples.mapping_ab None false in
  let second := apply_permissions first.1 "acme" Examples.two_unmapped
                                  Examples.mapping_ab None false in
  writes second.2 = [] ∧ second.1 = first.1.
Proof.
  exact (proj2 (proj2 second_run_writes_nothing) MemGithub_laws
           Examples.acme "acme" Examples.two_unmapped Examples.mapping_ab
           None false eq_refl eq_refl).
Defined.

(** * Further properties *)

(** ** utils.py *)

Lemma rank_None_unknown p : rank p = None → ¬ known p.
Proof. intros Hr [i Hi]%known_rank. congruence. Qed.

(** X1.  On permissions of the order [max_perm] is commutative. *)
Theorem max_perm_comm (a b : string) :
  known a → known b →
  (max_perm (Some a) b).1 = (max_perm (Some b) a).1.
Proof.
  unfold known, PERM_ORDER. intros Ha Hb.
  repeat (apply elem_of_cons in Ha as [->|Ha]);
    try (by apply elem_of_nil in Ha);
    repeat (apply elem_of_cons in Hb as [->|Hb]);
    try (by apply elem_of_nil in Hb);
    reflexivity.
Qed.

Lemma max_perm_comm_witness :
  (max_perm (Some "REPO_ADMIN") "REPO_READ").1
  = (max_perm (Some "REPO_READ") "REPO_ADMIN").1.
Proof.
  apply (max_perm_comm "REPO_ADMIN" "REPO_READ");
    apply (bool_decide_unpack _); vm_compute; exact I.
Defined.

(** X2.  [max_perm] returns one of its two arguments.  It logs, one
    warning naming [new_perm], exactly when there is a current value and
    one of the two strings is outside the order; otherwise it is silent. *)
Theorem max_perm_picks (cur : option string) (new : string) :
  ((max_perm cur new).1 = new ∨ cur = Some (max_perm cur new).1)
  ∧ ((max_perm cur new).2 = [unknown_permission new]
     ↔ ∃ c, cur = Some c ∧ (¬ known c ∨ ¬ known new))
  ∧ ((max_perm cur new).2 = []
     ↔ ¬ ∃ c, cur = Some c ∧ (¬ known c ∨ ¬ known new)).
Proof.
  destruct cur as [c|].
  2: { rewrite max_perm_None. cbn [fst snd].
       split; [by left|]. split; split; try done.
       - intros (c & Hc & _). discriminate.
       - intros _ (c & Hc & _). discriminate. }
  unfold max_perm. fold (rank c) (rank new).
  destruct (rank c) as [i|] eqn:Hc, (rank new) as [j|] eqn:Hn; cbn [fst snd].
  - pose proof (rank_known _ _ Hc). pose proof (rank_known _ _ Hn).
    split; [destruct (i <? j)%nat; auto|].
    split; split; try done.
    + intros (c' & [= <-] & [?|?]); done.
    + intros _ (c' & [= <-] & [?|?]); done.
  - pose proof (rank_None_unknown _ Hn).
    split; [by right|]. split; split; try done.
    + intros _. exists c. auto.
    + intros Hno. destruct Hno. exists c. auto.
  - pose proof (rank_None_unknown _ Hc).
    split; [by right|]. split; split; try done.
    + intros _. exists c. auto.
    + intros Hno. destruct Hno. exists c. auto.
  - pose proof (rank_None_unknown _ Hc).
    split; [by right|]. split; split; try done.
    + intros _. exists c. auto.
    + intros Hno. destruct Hno. exists c. auto.
Qed.

(** X3.  A permission string has a GitHub level exactly when it is one of
    the order; the level is "pull", "push" or "admin", and distinct
    permissions get distinct levels. *)
Theorem permission_maps_iff_known (p : string) :
  (is_Some (BITBUCKET_TO_GITHUB !! p) ↔ known p)
  ∧ (Py.nonempty (BITBUCKET_TO_GITHUB !! p) = None ↔ ¬ known p)
  ∧ (∀ g, BITBUCKET_TO_GITHUB !! p = Some g →
          Py.nonempty (Some g) = Some g ∧ g ∈ ["pull"; "push"; "admin"])
  ∧ (∀ q g, BITBUCKET_TO_GITHUB !! p = Some g →
            BITBUCKET_TO_GITHUB !! q = Some g → p = q).
Proof.
  assert (∀ q g, BITBUCKET_TO_GITHUB !! q = Some g →
                 (q = "REPO_READ" ∧ g = "pull")
                 ∨ (q = "REPO_WRITE" ∧ g = "push")
                 ∨ (q = "REPO_ADMIN" ∧ g = "admin")) as Hcases.
  { intros q g Hq. unfold BITBUCKET_TO_GITHUB in Hq.
    repeat (apply lookup_insert_Some in Hq as [[<- <-]|[_ Hq]]; [by auto|]).
    by rewrite lookup_empty in Hq. }
  assert (known p → is_Some (BITBUCKET_TO_GITHUB !! p)) as Hknown.
  { unfold known, PERM_ORDER. intros Hp.
    repeat (apply elem_of_cons in Hp as [->|Hp]); [by eexists ..|].
    by apply elem_of_nil in Hp. }
  assert (is_Some (BITBUCKET_TO_GITHUB !! p) → known p) as Hmaps.
  { intros [g Hg]. unfold known, PERM_ORDER.
    destruct (Hcases _ _ Hg) as [[-> _]|[[-> _]|[-> _]]]; set_solver. }
  split; [by split|]. split; [|split].
  - split.
    + intros Hn Hp. destruct (Hknown Hp) as [g Hg].
      destruct (Hcases _ _ Hg) as [[_ ->]|[[_ ->]|[_ ->]]];
        rewrite Hg in Hn; discriminate.
    + intros Hp. destruct (BITBUCKET_TO_GITHUB !! p) as [g|] eqn:Hg; [|done].
      destruct Hp. apply Hmaps. by eexists.
  - intros g Hg.
    destruct (Hcases _ _ Hg) as [[_ ->]|[[_ ->]|[_ ->]]];
      (split; [reflexivity|set_solver]).
  - intros q g Hp Hq.
    destruct (Hcases _ _ Hp) as [[-> ->]|[[-> ->]|[-> ->]]];
      destruct (Hcases _ _ Hq) as [[-> ?]|[[-> ?]|[-> ?]]]; done.
Qed.

Lemma append_assoc (a b c : string) : (a +:+ b) +:+ c = a +:+ (b +:+ c).
Proof.
  induction a as [|x a IH]; [done|].
  change (String x ((a +:+ b) +:+ c) = String x (a +:+ (b +:+ c))).
  by rewrite IH.
Qed.

(** X4.  The target name joins project key and repository slug with a
    dash, so two repositories whose keys and slugs split the same text at
    different dashes get the same target. *)
Theorem target_name_collision (org p s t : string) :
  from_project_repo org (p +:+ "-" +:+ s) t
  = from_project_repo org p (s +:+ "-" +:+ t).
Proof. unfold from_project_repo. by rewrite !append_assoc. Qed.

(** ** expand_groups.py *)

Lemma fold_lookup_Some gs k r :
  foldl apply_grant ∅ gs !! k = Some r →
  ∃ g, g ∈ gs ∧ g_key g = k ∧ g_source g = source r
       ∧ g_principal g = source_principal r.
Proof.
  induction gs as [|g gs IH] using rev_ind; simpl.
  - by rewrite lookup_empty.
  - rewrite foldl_apply_grant_snoc. destruct (decide (g_key g = k)) as [<-|Hne].
    + rewrite apply_grant_lookup_eq. intros [= <-]. exists g.
      split; [apply elem_of_app; right; by left|done].
    + rewrite apply_grant_lookup_ne by done. intros (g' & Hin & Hs)%IH.
      exists g'. split; [apply elem_of_app; by left|done].
Qed.

Lemma sort_key_out_rows gs :
  sort_key <$> (map_to_list (foldl apply_grant ∅ gs)).*2
  = (map_to_list (foldl apply_grant ∅ gs)).*1.
Proof.
  rewrite <- list_fmap_compose. apply list_fmap_ext.
  intros i [k r] Hl. simpl.
  apply list_elem_of_lookup_2, elem_of_map_to_list in Hl.
  by eapply fold_sort_key.
Qed.

(** X5.  [expand] writes its rows in the order of their keys, one row
    for each key, and the keys are those of the grants folded. *)
Theorem expand_rows_sorted_distinct d gp gm :
  let rows := out_rows (merge d gp gm).1 in
  written (expand d gp gm false) = Some rows
  ∧ Sorted row_le rows
  ∧ NoDup (sort_key <$> rows)
  ∧ (∀ k, k ∈ sort_key <$> rows ↔ ∃ g, g ∈ grants d gp gm ∧ g_key g = k).
Proof.
  intros rows. subst rows. split.
  { unfold expand. by destruct (merge d gp gm). }
  split; [apply out_rows_sorted|].
  rewrite merge_fst. unfold out_rows. split.
  - rewrite merge_sort_Permutation, sort_key_out_rows.
    apply NoDup_fst_map_to_list.
  - intros k. rewrite merge_sort_Permutation, sort_key_out_rows.
    rewrite list_elem_of_fmap. split.
    + intros ([k' r] & -> & Hin%elem_of_map_to_list). simpl in *.
      destruct (fold_lookup_Some _ _ _ Hin) as (g & Hg & Hk & _). eauto.
    + intros (g & Hg & <-).
      destruct (foldl apply_grant ∅ (grants d gp gm) !! g_key g) as [r|] eqn:E.
      * exists (g_key g, r). split; [done|]. by apply elem_of_map_to_list.
      * pose proof (proj1 (fold_lookup_None _ _) E g Hg). done.
Qed.

Lemma grant_wellformed d gp gm g :
  g ∈ grants d gp gm →
  Py.truthy (g_key g).2 = true
  ∧ (g_source g = "user"
     ∨ (g_source g = "group" ∧ Py.truthy (g_principal g) = true)).
Proof.
  unfold grants.
  intros [(row & _ & Hg)%list_elem_of_omap
         | (row & Hg & _)%list_elem_of_bind]%elem_of_app.
  - unfold direct_grant in Hg. destruct (Py.truthy _) eqn:He; [|done].
    injection Hg as <-. simpl. auto.
  - unfold group_grants in Hg.
    destruct (Py.truthy _) eqn:Hgr; [|by apply elem_of_nil in Hg].
    apply list_elem_of_omap in Hg as (m & Hm & Hg).
    unfold member_grant in Hg.
    destruct (Py.truthy (Py.strip (Py.or_else (m !! "email") ""))) eqn:He;
      [|done].
    injection Hg as <-. simpl. auto.
Qed.

(** X6.  Every row written has an address, and is attributed either to
    "user" or to "group" with the name of a group. *)
Theorem expand_rows_wellformed d gp gm :
  Forall (λ r, Py.truthy (email r) = true
               ∧ (source r = "user"
                  ∨ (source r = "group"
                     ∧ Py.truthy (source_principal r) = true)))
         (out_rows (merge d gp gm).1).
Proof.
  apply Forall_forall. intros r [k Hk]%elem_of_out_rows.
  rewrite merge_fst in Hk.
  pose proof (fold_sort_key _ _ _ Hk) as Hsk.
  destruct (fold_lookup_Some _ _ _ Hk) as (g & Hg & Hkey & Hs & Hp).
  destruct (grant_wellformed _ _ _ _ Hg) as [He Hsrc].
  rewrite <- Hs, <- Hp. split; [|done].
  rewrite Hkey, <- Hsk in He. done.
Qed.

Lemma direct_step_snd st row :
  (direct_step st row).2
  = st.2 ++ match direct_grant row with
            | Some g => (max_perm (permission <$> st.1 !! g_key g) (g_perm g)).2
            | None => [skipping_direct row]
            end.
Proof.
  destruct st as [eff lg]. unfold direct_step, direct_grant.
  destruct (Py.truthy _); simpl; [|done].
  by destruct (max_perm _ _).
Qed.

Lemma member_step_snd row st m :
  (member_step row (Py.or_else (row !! "principal") "")
               (Py.or_else (row !! "permission") "") st m).2
  = st.2 ++ match member_grant row m with
            | Some g => (max_perm (permission <$> st.1 !! g_key g) (g_perm g)).2
            | None => []
            end.
Proof.
  destruct st as [eff lg]. unfold member_step, member_grant.
  destruct (Py.truthy _); simpl; [|by rewrite app_nil_r].
  by destruct (max_perm _ _).
Qed.

Section log_filter.
Variable P : LogRecord → Prop.
Context `{!∀ r, Decision (P r)}.
Hypothesis P_unknown : ∀ p, ¬ P (unknown_permission p).
Hypothesis P_no_members : ∀ g, ¬ P (no_members g).

Lemma filter_max_perm prev perm : filter P (max_perm prev perm).2 = [].
Proof.
  unfold max_perm. destruct prev as [cur|]; [|done].
  destruct (Py.index cur PERM_ORDER), (Py.index perm PERM_ORDER);
    cbn [snd]; try done;
    rewrite filter_cons, filter_nil;
    (case_decide as HP; [by apply P_unknown in HP|done]).
Qed.

Lemma filter_member_step row st m :
  filter P (member_step row (Py.or_else (row !! "principal") "")
                        (Py.or_else (row !! "permission") "") st m).2
  = filter P st.2.
Proof.
  rewrite member_step_snd, filter_app.
  destruct (member_grant row m); [rewrite filter_max_perm|];
    by rewrite app_nil_r.
Qed.

Lemma filter_group_step mbg st row :
  filter P (group_step mbg st row).2 = filter P st.2.
Proof.
  unfold group_step. destruct (Py.truthy _); cbn [negb]; [|done].
  set (st1 := match default [] (mbg !! _) with [] => _ | _ :: _ => st end).
  assert (filter P st1.2 = filter P st.2) as <-.
  { subst st1. destruct (default _ _); [|done]. cbn [snd].
    rewrite filter_app, filter_cons, filter_nil.
    case_decide as HP; [by apply P_no_members in HP|by rewrite app_nil_r]. }
  generalize st1. clear st1.
  induction (default [] (mbg !! _)) as [|m ms IH]; intros st1; simpl; [done|].
  by rewrite IH, filter_member_step.
Qed.

Lemma filter_group_loop mbg st gp :
  filter P (foldl (group_step mbg) st gp).2 = filter P st.2.
Proof.
  revert st. induction gp as [|row gp IH]; intros st; simpl; [done|].
  by rewrite IH, filter_group_step.
Qed.
End log_filter.

Lemma filter_direct_loop st d :
  filter (λ r, fmt r = "Skipping direct user row without email: %s")
         (foldl direct_step st d).2
  = filter (λ r, fmt r = "Skipping direct user row without email: %s") st.2
    ++ (skipping_direct
          <$> filter (λ row, Py.truthy (Py.strip (Py.or_else (row !! "email") ""))
                             = false) d).
Proof.
  revert st. induction d as [|row d IH]; intros st; simpl.
  { by rewrite app_nil_r. }
  rewrite IH, direct_step_snd, filter_app, <- app_assoc. f_equal.
  rewrite filter_cons. unfold direct_grant.
  destruct (Py.truthy (Py.strip (Py.or_else (row !! "email") ""))) eqn:He.
  - rewrite filter_max_perm by (intros p Hp; discriminate).
    by case_decide.
  - case_decide; [|done]. by rewrite filter_cons, filter_nil.
Qed.

(** X7.  The direct rows without an address are the ones reported: the
    "Skipping direct user row" warnings of a run are, in file order, one
    for each such row. *)
Theorem direct_rows_without_email_warned d gp gm :
  filter (λ r, fmt r = "Skipping direct user row without email: %s")
         (merge d gp gm).2
  = skipping_direct
      <$> filter (λ row, Py.truthy (Py.strip (Py.or_else (row !! "email") ""))
                         = false) d.
Proof.
  unfold merge.
  rewrite filter_group_loop by (intros ? ?; discriminate).
  by rewrite filter_direct_loop.
Qed.

(** X8.  Group rows with an empty principal are passed over: the result
    and the log are the ones obtained without them. *)
Theorem empty_principal_ignored d gp gm :
  merge d gp gm
  = merge d (filter (λ row, Py.truthy (Py.or_else (row !! "principal") "") = true)
                    gp) gm.
Proof.
  unfold merge. generalize (foldl direct_step (∅, []) d). intros st.
  revert st. induction gp as [|row gp IH]; intros st; [done|].
  rewrite filter_cons. simpl. case_decide as Hg.
  - simpl. apply IH.
  - rewrite <- IH. f_equal. unfold group_step.
    destruct (Py.truthy (Py.or_else (row !! "principal") "")); done.
Qed.

Lemma load_members_nonempty gm g : load_members gm !! g ≠ Some [].
Proof.
  induction gm as [|m gm IH] using rev_ind.
  - unfold load_members. simpl. by rewrite lookup_empty.
  - rewrite load_members_snoc. unfold add_member.
    destruct (Py.truthy _); [|done].
    destruct (decide (Py.get_default m "group" "" = g)) as [<-|Hne].
    + rewrite lookup_insert_eq. intros [= Hnil].
      by apply app_eq_nil in Hnil as [_ ?].
    + by rewrite lookup_insert_ne.
Qed.

(** X9.  [members_by_group] lists, under each non-empty group name, the
    member rows naming that group, in file order; rows with an empty or
    missing group are left out, and no group is listed without rows. *)
Theorem members_by_group_listing gm g :
  default [] (load_members gm !! g)
  = (if Py.truthy g
     then filter (λ m, Py.get_default m "group" "" = g) gm else [])
  ∧ load_members gm !! g ≠ Some [].
Proof. split; [apply load_members_lookup|apply load_members_nonempty]. Qed.

Lemma apply_grant_known eff g :
  stored_known eff → known (g_perm g) →
  stored_known (apply_grant eff g)
  ∧ (max_perm (permission <$> eff !! g_key g) (g_perm g)).2 = [].
Proof.
  intros Hinv Hg.
  assert (∃ p, max_perm (permission <$> eff !! g_key g) (g_perm g) = (p, [])
               ∧ known p) as (p & Hp & Hkp).
  { destruct (eff !! g_key g) as [r0|] eqn:E;
      cbn [fmap option_fmap option_map].
    - destruct (max_perm_known _ _ (Hinv _ _ E) Hg) as (p & -> & [-> | ->] & _);
        eauto.
    - rewrite max_perm_None. eauto. }
  split; [|by rewrite Hp].
  intros k r. destruct (decide (g_key g = k)) as [<-|Hne].
  - rewrite apply_grant_lookup_eq, Hp. by intros [= <-].
  - rewrite apply_grant_lookup_ne by done. apply Hinv.
Qed.

Lemma direct_loop_silent d st :
  stored_known st.1 →
  (∀ row g, row ∈ d → direct_grant row = Some g → known (g_perm g)) →
  stored_known (foldl direct_step st d).1
  ∧ filter (λ r, fmt r = "Unknown permission encountered: %s")
           (foldl direct_step st d).2
    = filter (λ r, fmt r = "Unknown permission encountered: %s") st.2.
Proof.
  revert st. induction d as [|row d IH]; intros st Hinv Hk; simpl; [done|].
  assert (stored_known (direct_step st row).1
          ∧ filter (λ r, fmt r = "Unknown permission encountered: %s")
                   (direct_step st row).2
            = filter (λ r, fmt r = "Unknown permission encountered: %s") st.2)
    as [Hinv' Hlog'].
  { rewrite direct_step_fst, direct_step_snd, filter_app.
    destruct (direct_grant row) as [g|] eqn:Hg.
    - destruct (apply_grant_known st.1 g Hinv) as [? ->];
        [eapply Hk; [by left|done]|].
      split; [done|]. by rewrite app_nil_r.
    - split; [done|]. rewrite filter_cons, filter_nil.
      case_decide; [done|]. by rewrite app_nil_r. }
  destruct (IH _ Hinv') as [? ->]; [|done].
  intros r g Hr. apply Hk. by right.
Qed.

Lemma member_loop_silent row ms st :
  stored_known st.1 →
  (∀ m g, m ∈ ms → member_grant row m = Some g → known (g_perm g)) →
  stored_known
    (foldl (member_step row (Py.or_else (row !! "principal") "")
                        (Py.or_else (row !! "permission") "")) st ms).1
  ∧ filter (λ r, fmt r = "Unknown permission encountered: %s")
           (foldl (member_step row (Py.or_else (row !! "principal") "")
                               (Py.or_else (row !! "permission") "")) st ms).2
    = filter (λ r, fmt r = "Unknown permission encountered: %s") st.2.
Proof.
  revert st. induction ms as [|m ms IH]; intros st Hinv Hk; simpl; [done|].
  set (st' := member_step _ _ _ st m).
  assert (stored_known st'.1
          ∧ filter (λ r, fmt r = "Unknown permission encountered: %s") st'.2
            = filter (λ r, fmt r = "Unknown permission encountered: %s") st.2)
    as [Hinv' Hlog'].
  { subst st'. rewrite member_step_fst, member_step_snd, filter_app.
    destruct (member_grant row m) as [g|] eqn:Hg.
    - destruct (apply_grant_known st.1 g Hinv) as [? ->];
        [eapply Hk; [by left|done]|].
      split; [done|]. by rewrite app_nil_r.
    - split; [done|]. by rewrite app_nil_r. }
  destruct (IH _ Hinv') as [? ->]; [|done].
  intros r g Hr. apply Hk. by right.
Qed.

Lemma group_loop_silent mbg gp st :
  stored_known st.1 →
  (∀ row g, row ∈ gp → g ∈ group_grants mbg row → known (g_perm g)) →
  stored_known (foldl (group_step mbg) st gp).1
  ∧ filter (λ r, fmt r = "Unknown permission encountered: %s")
           (foldl (group_step mbg) st gp).2
    = filter (λ r, fmt r = "Unknown permission encountered: %s") st.2.
Proof.
  revert st. induction gp as [|row gp IH]; intros st Hinv Hk; simpl; [done|].
  assert (stored_known (group_step mbg st row).1
          ∧ filter (λ r, fmt r = "Unknown permission encountered: %s")
                   (group_step mbg st row).2
            = filter (λ r, fmt r = "Unknown permission encountered: %s") st.2)
    as [Hinv' Hlog'].
  { pose proof (Hk row) as Hrow. unfold group_grants in Hrow.
    unfold group_step.
    destruct (Py.truthy (Py.or_else (row !! "principal") "")); cbn [negb];
      [|done].
    set (st1 := match default [] (mbg !! _) with [] => _ | _ :: _ => st end).
    assert (st1.1 = st.1
            ∧ filter (λ r, fmt r = "Unknown permission encountered: %s") st1.2
              = filter (λ r, fmt r = "Unknown permission encountered: %s") st.2)
      as [H1 H2].
    { subst st1. destruct (default _ _); [|done]. cbn [fst snd].
      split; [done|]. rewrite filter_app, filter_cons, filter_nil.
      case_decide; [done|]. by rewrite app_nil_r. }
    rewrite <- H2. apply member_loop_silent; [by rewrite H1|].
    intros m g Hm Hg. apply Hrow; [by left|].
    apply list_elem_of_omap. eauto. }
  destruct (IH _ Hinv') as [? ->]; [|done].
  intros r g Hr. apply Hk. by right.
Qed.

(** X10.  When every grant folded carries a permission of the order, the
    merge logs no "Unknown permission" warning and stores permissions of
    the order only. *)
Theorem known_grants_merge_silent d gp gm :
  (∀ g, g ∈ grants d gp gm → known (g_perm g)) →
  filter (λ r, fmt r = "Unknown permission encountered: %s") (merge d gp gm).2
  = []
  ∧ ∀ k r, (merge d gp gm).1 !! k = Some r → known (permission r).
Proof.
  intros Hk. unfold merge.
  destruct (direct_loop_silent d (∅, [])) as [Hinv Hlog].
  { intros k r He. cbn [fst] in He. by rewrite lookup_empty in He. }
  { intros row g Hrow Hg. apply Hk. unfold grants. apply elem_of_app. left.
    apply list_elem_of_omap. eauto. }
  destruct (group_loop_silent (load_members gm) gp _ Hinv) as [Hinv' Hlog'].
  { intros row g Hrow Hg. apply Hk. unfold grants. apply elem_of_app. right.
    apply list_elem_of_bind. eauto. }
  split; [by rewrite Hlog', Hlog|done].
Qed.

Lemma known_grants_merge_silent_witness :
  filter (λ r, fmt r = "Unknown permission encountered: %s")
         (merge Examples.direct_read Examples.dev_then_ops Examples.in_both).2
  = [].
Proof.
  refine (proj1 (known_grants_merge_silent
            Examples.direct_read Examples.dev_then_ops Examples.in_both _)).
  intros g Hg. apply (bool_decide_unpack _). vm_compute in Hg.
  repeat (apply elem_of_cons in Hg as [->|Hg]); [vm_compute; exact I ..|].
  by apply elem_of_nil in Hg.
Defined.

Lemma apply_grant_monotone eff g k r :
  eff !! k = Some r →
  ∃ r', apply_grant eff g !! k = Some r'
        ∧ (permission r' = permission r
           ∨ perm_le (permission r) (permission r')).
Proof.
  intros Hr. destruct (decide (g_key g = k)) as [<-|Hne].
  2: { exists r. rewrite apply_grant_lookup_ne by done. auto. }
  rewrite apply_grant_lookup_eq, Hr. eexists. split; [done|].
  cbn [permission fmap option_fmap option_map].
  destruct (rank (permission r)) as [i|] eqn:Hc.
  - destruct (rank (g_perm g)) as [j|] eqn:Hn.
    + destruct (max_perm_known (permission r) (g_perm g))
        as (p & -> & _ & Hle & _); [by eapply rank_known..|]. auto.
    + rewrite max_perm_unknown_new by (by apply rank_None_unknown). auto.
  - rewrite max_perm_unknown_cur by (by apply rank_None_unknown). auto.
Qed.

Lemma fold_monotone gs eff k r :
  eff !! k = Some r →
  ∃ r', foldl apply_grant eff gs !! k = Some r'
        ∧ (permission r' = permission r
           ∨ perm_le (permission r) (permission r')).
Proof.
  revert eff r. induction gs as [|g gs IH]; intros eff r Hr; simpl; [eauto|].
  destruct (apply_grant_monotone eff g k r Hr) as (r1 & Hr1 & H1).
  destruct (IH _ _ Hr1) as (r2 & Hr2 & H2).
  exists r2. split; [done|].
  destruct H1 as [E1|L1], H2 as [E2|L2].
  - left. congruence.
  - right. by rewrite <- E1.
  - right. by rewrite E2.
  - right. by eapply perm_le_trans.
Qed.

(** X11.  More group rows never take anything away: a key present without
    them is present with them, and its permission is the same or a
    stronger one. *)
Theorem more_grants_never_weaken d gp gp' gm k r :
  (merge d gp gm).1 !! k = Some r →
  ∃ r', (merge d (gp ++ gp') gm).1 !! k = Some r'
        ∧ (permission r' = permission r
           ∨ perm_le (permission r) (permission r')).
Proof.
  intros Hr. rewrite merge_fst in Hr. rewrite merge_fst. unfold grants in *.
  rewrite bind_app, app_assoc, foldl_app. by apply fold_monotone.
Qed.

Lemma more_grants_never_weaken_witness :
  ∃ r', (merge Examples.direct_read ([] ++ Examples.dev_write)
               Examples.dev_members).1 !! Examples.k1 = Some r'
        ∧ (permission r' = "REPO_READ" ∨ perm_le "REPO_READ" (permission r')).
Proof.
  exact (more_grants_never_weaken
           Examples.direct_read [] Examples.dev_write Examples.dev_members
           Examples.k1 (mkEff "P1" "R1" "a@x.com" "REPO_READ" "user" "alice")
           eq_refl).
Defined.

(** ** apply_github_permissions.py *)

Lemma nonempty_Some v s :
  Py.nonempty v = Some s → v = Some s ∧ Py.truthy s = true.
Proof.
  destruct v as [x|]; simpl; [|done].
  destruct (Py.truthy x) eqn:Hx; [|done]. by intros [= <-].
Qed.

Lemma load_email_to_login_snoc rows row :
  load_email_to_login (Some (rows ++ [row]))
  = let email := Py.lower (Py.strip (Py.or_else (row !! "email") "")) in
    let login := Py.strip (Py.or_else (row !! "github_login") "") in
    if Py.truthy email && Py.truthy login
    then <[email := login]> (load_email_to_login (Some rows))
    else load_email_to_login (Some rows).
Proof. unfold load_email_to_login. by rewrite foldl_app. Qed.

(** X12.  The mapping read from the optional file sends an address,
    stripped and lowercased, to the stripped login of the last row that
    gives both; it holds no empty address and no empty login, and is
    empty when no file is given. *)
Theorem email_to_login_last_wins (rows : list Row) (e : string) :
  load_email_to_login (Some rows) !! e
  = (λ row, Py.strip (Py.or_else (row !! "github_login") ""))
      <$> last (filter
                  (λ row,
                     Py.truthy (Py.lower (Py.strip (Py.or_else (row !! "email") "")))
                     && Py.truthy (Py.strip (Py.or_else (row !! "github_login") ""))
                     = true
                     ∧ Py.lower (Py.strip (Py.or_else (row !! "email") "")) = e)
                  rows)
  ∧ map_Forall (λ e l, Py.truthy e = true ∧ Py.truthy l = true)
               (load_email_to_login (Some rows))
  ∧ load_email_to_login None = ∅.
Proof.
  split; [|split; [|done]].
  - induction rows as [|row rows IH] using rev_ind.
    { simpl. by rewrite lookup_empty. }
    rewrite load_email_to_login_snoc, filter_app, filter_cons, filter_nil.
    cbn zeta.
    destruct (Py.truthy _ && Py.truthy _) eqn:Hv.
    + destruct (decide (Py.lower (Py.strip (Py.or_else (row !! "email") "")) = e))
        as [He|He].
      * rewrite He, lookup_insert_eq.
        rewrite decide_True by done. by rewrite last_snoc.
      * rewrite lookup_insert_ne by done.
        rewrite decide_False by (by intros [_ ?]). by rewrite app_nil_r.
    + rewrite decide_False by (by intros [? _]). by rewrite app_nil_r.
  - induction rows as [|row rows IH] using rev_ind.
    { apply map_Forall_empty. }
    rewrite load_email_to_login_snoc. cbn zeta.
    destruct (Py.truthy _ && Py.truthy _) eqn:Hv; [|done].
    apply andb_true_iff in Hv as [? ?]. by apply map_Forall_insert_2.
Qed.

Lemma bb_lookup_levels b p :
  BITBUCKET_TO_GITHUB !! b = Some p → p ∈ ["pull"; "push"; "admin"].
Proof.
  unfold BITBUCKET_TO_GITHUB. intros Hb.
  repeat (apply lookup_insert_Some in Hb as [[_ <-]|[_ Hb]]; [set_solver|]).
  by rewrite lookup_empty in Hb.
Qed.

Lemma resolve_login_truthy etl dm e login p :
  resolve etl dm e = Some (login, p) → Py.truthy login = true.
Proof.
  unfold resolve. destruct (Py.nonempty (BITBUCKET_TO_GITHUB !! _)); [|done].
  destruct (Py.nonempty (etl !! _)) as [l|] eqn:Hl.
  - intros [= <- <-]. by apply nonempty_Some in Hl as [_ ?].
  - destruct (Py.nonempty dm) as [l|] eqn:Hd; [|done].
    intros [= <- <-]. by apply nonempty_Some in Hd as [_ ?].
Qed.

Section loops.
Context {G : Type} `{Github G}.

(** What holds of every element's events holds of the loop's. *)
Lemma for_each_Forall {A} (Q : Event → Prop) (I : G → Prop)
      (body : G → A → G * list Event) (l : list A) gh :
  I gh →
  (∀ gh x, x ∈ l → I gh → I (body gh x).1 ∧ Forall Q (body gh x).2) →
  I (for_each body l gh).1 ∧ Forall Q (for_each body l gh).2.
Proof.
  revert gh. induction l as [|x l IH]; intros gh HI Hbody.
  { rewrite for_each_nil. by split. }
  rewrite for_each_cons. cbn [fst snd].
  destruct (Hbody gh x) as [HI1 HQ1]; [by left|done|].
  destruct (IH (body gh x).1 HI1) as [HI2 HQ2].
  { intros g y Hy. apply Hbody. by right. }
  split; [done|]. apply Forall_app. by split.
Qed.

Lemma rcw_events dry full login gh_perm email gh :
  Forall (λ ev, ev = CallGetPermission full login
                ∨ ev = CallAdd full login gh_perm
                ∨ ∃ r, ev = Log r)
         (read_compare_write dry full login gh_perm email gh).2.
Proof.
  unfold read_compare_write.
  destruct (negb _); [|destruct dry;
                        [|destruct (add_to_collaborators _ _ _ _)]];
    cbn [snd]; repeat (apply Forall_cons; split); try apply Forall_nil;
    naive_solver.
Qed.

Lemma rcw_dry full login gh_perm email gh :
  (read_compare_write true full login gh_perm email gh).1 = gh
  ∧ writes (read_compare_write true full login gh_perm email gh).2 = [].
Proof. unfold read_compare_write. by destruct (negb _). Qed.

Lemma entry_step_dry etl dm full gh e :
  (entry_step etl dm true full gh e).1 = gh
  ∧ writes (entry_step etl dm true full gh e).2 = [].
Proof.
  destruct (resolve etl dm e) as [[login p]|] eqn:Hr.
  - destruct (entry_step_resolved etl dm true full gh e _ _ Hr)
      as (email & pre & -> & Hpre & _).
    destruct (rcw_dry full login p email gh) as [Hg Hw]. cbn [fst snd].
    split; [done|]. by rewrite writes_app, Hpre, Hw.
  - by destruct (entry_step_unresolved etl dm true full gh e Hr) as (w & -> & _).
Qed.

Lemma for_each_unchanged {A} (body : G → A → G * list Event) (l : list A) gh :
  (∀ gh x, (body gh x).1 = gh ∧ writes (body gh x).2 = []) →
  (for_each body l gh).1 = gh ∧ writes (for_each body l gh).2 = [].
Proof.
  intros Hbody. revert gh. induction l as [|x l IH]; intros gh; [done|].
  rewrite for_each_cons. cbn [fst snd].
  destruct (Hbody gh x) as [-> Hw]. destruct (IH gh) as [-> Hw'].
  split; [done|]. by rewrite writes_app, Hw, Hw'.
Qed.

Lemma repo_step_dry etl dm gh item :
  (repo_step etl dm true gh item).1 = gh
  ∧ writes (repo_step etl dm true gh item).2 = [].
Proof.
  destruct item as [full es]. unfold repo_step.
  destruct (get_repo gh full); [|done].
  destruct (for_each_unchanged
              (λ g e, entry_step etl dm true full g e) es gh) as [Hg Hw].
  { intros. apply entry_step_dry. }
  destruct (for_each _ es gh) as [gh' tr]. cbn [fst snd] in *.
  split; [done|]. by rewrite writes_app, Hw.
Qed.

End loops.

(** X13.  Under dry-run no write is issued and GitHub is left as it was,
    whatever the rows, the mapping and the state of GitHub. *)
Theorem dry_run_writes_nothing {G : Type} `{Github G}
        (gh : G) (org : string) (rows : list Row)
        (mapping_csv : option (list Row)) (default_missing : option string) :
  writes (apply_permissions gh org rows mapping_csv default_missing true).2 = []
  ∧ (apply_permissions gh org rows mapping_csv default_missing true).1 = gh.
Proof.
  unfold apply_permissions.
  destruct (for_each_unchanged
              (repo_step (load_email_to_login mapping_csv) default_missing true)
              (sorted_items (group_by_repo org rows)) gh) as [Hg Hw].
  { intros. apply repo_step_dry. }
  destruct (for_each _ _ gh) as [gh' tr]. cbn [fst snd] in *. done.
Qed.

Section events.
Context {G : Type} `{Github G}.
Variables (etl : gmap string string) (dm : option string).

(** The events of one entry: logs, and calls for the entry's own
    repository, login and level. *)
Lemma entry_step_events dry full gh e :
  Forall (λ ev, (∃ r, ev = Log r)
                ∨ ∃ login p, resolve etl dm e = Some (login, p)
                             ∧ (ev = CallGetPermission full login
                                ∨ ev = CallAdd full login p))
         (entry_step etl dm dry full gh e).2.
Proof.
  destruct (resolve etl dm e) as [[login p]|] eqn:Hr.
  - unfold resolve in Hr. unfold entry_step.
    destruct (Py.nonempty (BITBUCKET_TO_GITHUB !! _)) as [p'|]; [|done].
    destruct (Py.nonempty (etl !! _)) as [l|].
    + injection Hr as -> ->.
      eapply Forall_impl; [apply rcw_events|]. naive_solver.
    + destruct (Py.nonempty dm) as [l|]; [|done]. injection Hr as -> ->.
      pose proof (rcw_events dry full login p
                    (Py.lower (Py.strip (Py.or_else (e !! "email") ""))) gh)
        as Hev.
      destruct (read_compare_write _ _ _ _ _ _) as [gh' tr]. cbn [snd] in *.
      apply Forall_cons. split; [left; by eexists|].
      eapply Forall_impl; [exact Hev|]. naive_solver.
  - destruct (entry_step_unresolved etl dm dry full gh e Hr) as (w & Hs & _).
    rewrite Hs. cbn [snd]. apply Forall_cons.
    split; [left; by eexists|]. by apply Forall_nil.
Qed.

Lemma repo_step_writes org (rows : list Row) dry gh full (es : list Row) :
  (∀ e, e ∈ es → e ∈ rows ∧ full_name_of org e = full) →
  Forall (λ ev, is_write ev = true →
                ∃ e login p,
                  e ∈ rows ∧ resolve etl dm e = Some (login, p)
                  ∧ ev = CallAdd (full_name_of org e) login p
                  ∧ p ∈ ["pull"; "push"; "admin"]
                  ∧ Py.truthy login = true)
         (repo_step etl dm dry gh (full, es)).2.
Proof.
  intros Hes. unfold repo_step.
  destruct (get_repo gh full).
  2: { repeat (apply Forall_cons; split); try apply Forall_nil; done. }
  pose proof (for_each_Forall
    (λ ev, is_write ev = true →
           ∃ e login p,
             e ∈ rows ∧ resolve etl dm e = Some (login, p)
             ∧ ev = CallAdd (full_name_of org e) login p
             ∧ p ∈ ["pull"; "push"; "admin"]
             ∧ Py.truthy login = true)
    (λ _, True)
    (λ g e, entry_step etl dm dry full g e) es gh I) as Hloop.
  destruct (for_each _ es gh) as [gh' tr]. cbn [fst snd] in *.
  apply Forall_app. split.
  { repeat (apply Forall_cons; split); try apply Forall_nil; done. }
  apply Hloop. intros g e He _. split; [done|].
  eapply Forall_impl; [apply entry_step_events|].
  intros ev [[r ->]|(login & p & Hr & [-> | ->])] Hw; try done.
  destruct (Hes e He) as [Hrow <-].
  exists e, login, p. repeat split; try done.
  - destruct (entry_step_resolved etl dm dry (full_name_of org e) g e _ _ Hr)
      as (_ & _ & _ & _ & _ & b & Hb).
    by eapply bb_lookup_levels.
  - by eapply resolve_login_truthy.
Qed.

End events.

(** X14.  Every write of a run is a grant asked for by a row of the
    input: it names the repository of that row, the login the row
    resolves to, which is not empty, and one of the levels "pull",
    "push", "admin". *)
Theorem writes_come_from_rows {G : Type} `{Github G}
        (gh : G) (org : string) (rows : list Row)
        (mapping_csv : option (list Row)) (default_missing : option string)
        (dry_run : bool) :
  Forall (λ ev, is_write ev = true →
                ∃ e login p,
                  e ∈ rows
                  ∧ resolve (load_email_to_login mapping_csv) default_missing e
                    = Some (login, p)
                  ∧ ev = CallAdd (full_name_of org e) login p
                  ∧ p ∈ ["pull"; "push"; "admin"]
                  ∧ Py.truthy login = true)
         (apply_permissions gh org rows mapping_csv default_missing dry_run).2.
Proof.
  unfold apply_permissions.
  set (etl := load_email_to_login mapping_csv).
  pose proof (for_each_Forall
    (λ ev, is_write ev = true →
           ∃ e login p,
             e ∈ rows ∧ resolve etl default_missing e = Some (login, p)
             ∧ ev = CallAdd (full_name_of org e) login p
             ∧ p ∈ ["pull"; "push"; "admin"]
             ∧ Py.truthy login = true)
    (λ _, True)
    (repo_step etl default_missing dry_run)
    (sorted_items (group_by_repo org rows)) gh I) as Hloop.
  destruct (for_each _ _ gh) as [gh' tr]. cbn [fst snd] in *.
  apply Forall_cons. split; [done|].
  apply Hloop. intros g [full es] Hin _. split; [done|].
  apply repo_step_writes. intros e He.
  by eapply elem_of_sorted_items.
Qed.

Lemma group_by_repo_snoc org rows r :
  group_by_repo org (rows ++ [r])
  = <[full_name_of org r :=
        default [] (group_by_repo org rows !! full_name_of org r) ++ [r]]>
      (group_by_repo org rows).
Proof. unfold group_by_repo. by rewrite foldl_app. Qed.

Lemma group_by_repo_nonempty org rows f : group_by_repo org rows !! f ≠ Some [].
Proof.
  induction rows as [|r rows IH] using rev_ind.
  - unfold group_by_repo. simpl. by rewrite lookup_empty.
  - rewrite group_by_repo_snoc.
    destruct (decide (full_name_of org r = f)) as [<-|Hne].
    + rewrite lookup_insert_eq. intros [= Hnil].
      by apply app_eq_nil in Hnil as [_ ?].
    + by rewrite lookup_insert_ne.
Qed.

Lemma group_by_repo_Permutation org rows :
  map_to_list (group_by_repo org rows) ≫= snd ≡ₚ rows.
Proof.
  induction rows as [|r rows IH] using rev_ind.
  - unfold group_by_repo. simpl. by rewrite map_to_list_empty.
  - rewrite group_by_repo_snoc.
    set (m := group_by_repo org rows) in *. set (f := full_name_of org r).
    destruct (m !! f) as [es|] eqn:Hf; simpl.
    + rewrite <- insert_delete_eq.
      rewrite map_to_list_insert by apply lookup_delete_eq.
      rewrite <- IH, <- (map_to_list_delete m f es Hf).
      rewrite !bind_cons. simpl.
      rewrite <- !app_assoc. apply Permutation_app_head.
      apply Permutation_app_comm.
    + rewrite map_to_list_insert by done. rewrite bind_cons. simpl.
      rewrite IH. apply Permutation_cons_append.
Qed.

(** X15.  Grouping by target repository loses no row and repeats none:
    the repositories come in the order of their names, each once, each
    with the rows naming it in file order, and all the lists together are
    the rows of the input. *)
Theorem group_by_repo_partition (org : string) (rows : list Row) :
  let items := sorted_items (group_by_repo org rows) in
  Sorted item_le items
  ∧ NoDup items.*1
  ∧ Forall (λ item, item.2 ≠ []
                    ∧ item.2 = filter (λ r, full_name_of org r = item.1) rows)
           items
  ∧ items ≫= snd ≡ₚ rows.
Proof.
  intros items. subst items. split; [apply sorted_items_sorted|].
  unfold sorted_items. split; [|split].
  - rewrite merge_sort_Permutation. apply NoDup_fst_map_to_list.
  - rewrite merge_sort_Permutation. apply Forall_forall.
    intros [f es] Hin%elem_of_map_to_list. simpl.
    pose proof (group_by_repo_lookup org rows f) as Hl.
    rewrite Hin in Hl. simpl in Hl. split; [|done].
    intros ->. by apply (group_by_repo_nonempty org rows f).
  - rewrite merge_sort_Permutation. apply group_by_repo_Permutation.
Qed.

Lemma elem_of_sorted_items_2 org rows e :
  e ∈ rows →
  ∃ es, (full_name_of org e, es) ∈ sorted_items (group_by_repo org rows)
        ∧ e ∈ es.
Proof.
  intros He. pose proof (group_by_repo_lookup org rows (full_name_of org e)) as Hl.
  assert (e ∈ filter (λ r, full_name_of org r = full_name_of org e) rows) as Hin
    by (by apply list_elem_of_filter).
  rewrite <- Hl in Hin.
  destruct (group_by_repo org rows !! full_name_of org e) as [es|] eqn:E;
    simpl in Hin; [|by apply elem_of_nil in Hin].
  exists es. split; [|done].
  unfold sorted_items. rewrite merge_sort_Permutation.
  by apply elem_of_map_to_list.
Qed.

(** X16.  After a run outside dry-run in which no write failed, over rows
    that do not compete for a login, every row that resolves to a login
    on a reachable repository finds its level in place: a read of the
    collaborator's level, normalised, gives the level of the row. *)
Theorem first_run_reaches_levels {G : Type} `{Github G} `{!GithubLaws G}
        (gh : G) (org : string) (rows : list Row)
        (mapping_csv : option (list Row)) (default_missing : option string) :
  let etl := load_email_to_login mapping_csv in
  let first := apply_permissions gh org rows mapping_csv default_missing false in
  consistent org etl default_missing rows = true →
  no_failed_write first.2 = true →
  ∀ e login gh_perm,
    e ∈ rows →
    get_repo gh (full_name_of org e) ≠ Raised →
    resolve etl default_missing e = Some (login, gh_perm) →
    ∃ c, get_collaborator_permission first.1 (full_name_of org e) login
         = Returned (Some c)
         ∧ Py.truthy c = true ∧ normalize c = gh_perm.
Proof.
  intros etl first Hcons Hok e login p He Hacc Hr. subst first.
  unfold apply_permissions in *. fold etl in Hok |- *.
  set (items := sorted_items (group_by_repo org rows)) in *.
  pose proof (items_first etl default_missing items gh) as Hfirst.
  cbn zeta in Hfirst.
  destruct (for_each (repo_step etl default_missing false) items gh)
    as [gh1 tr1]. cbn [fst snd] in *.
  destruct Hfirst as (Hsat & _ & Hrepo).
  { done. }
  { intros f1 es1 f2 es2 e1 e2 H1 H2 He1 He2.
    destruct (elem_of_sorted_items _ _ _ _ _ H1 He1) as [Hr1 <-].
    destruct (elem_of_sorted_items _ _ _ _ _ H2 He2) as [Hr2 <-].
    by eapply consistent_compatible. }
  destruct (elem_of_sorted_items_2 org rows e He) as (es & Hin & Hes).
  assert (needs_update gh1 (full_name_of org e) login p = false) as Hn.
  { eapply Hsat; [done| |done..]. by rewrite Hrepo. }
  unfold needs_update in Hn.
  destruct (get_collaborator_permission gh1 (full_name_of org e) login)
    as [[c|]|]; cbn [Py.nonempty] in Hn; try done.
  destruct (Py.truthy c) eqn:Hc; [|done].
  apply negb_false_iff, bool_decide_eq_true in Hn. eauto.
Qed.

Lemma first_run_reaches_levels_witness :
  ∃ c, get_collaborator_permission
         (apply_permissions Examples.acme "acme" Examples.two_unmapped
                            Examples.mapping_ab None false).1
         (full_name_of "acme" (Examples.eff_row "P1" "R1" "a@x.com" "REPO_READ"))
         "alice"
       = Returned (Some c)
       ∧ Py.truthy c = true ∧ normalize c = "pull".
Proof.
  refine (first_run_reaches_levels
            Examples.acme "acme" Examples.two_unmapped Examples.mapping_ab None
            eq_refl eq_refl
            (Examples.eff_row "P1" "R1" "a@x.com" "REPO_READ") "alice" "pull"
            _ _ eq_refl).
  - by left.
  - vm_compute. discriminate.
Defined.

Section repos.
Context {G : Type} `{Github G}.
Variables (etl : gmap string string) (dm : option string).
Hypothesis keeps_repos : ∀ (gh gh' : G) full login gh_perm f,
  add_to_collaborators gh full login gh_perm = Returned gh' →
  get_repo gh' f = get_repo gh f.

Lemma rcw_keeps_repos dry full login gh_perm email gh f :
  get_repo (read_compare_write dry full login gh_perm email gh).1 f
  = get_repo gh f.
Proof.
  unfold read_compare_write. destruct (negb _); [done|].
  destruct dry; [done|].
  destruct (add_to_collaborators gh full login gh_perm) eqn:Hadd; [|done].
  cbn [fst]. by eapply keeps_repos.
Qed.

Lemma entry_step_keeps_repos dry full gh e f :
  get_repo (entry_step etl dm dry full gh e).1 f = get_repo gh f.
Proof.
  destruct (resolve etl dm e) as [[login p]|] eqn:Hr.
  - destruct (entry_step_resolved etl dm dry full gh e _ _ Hr)
      as (email & pre & -> & _). cbn [fst]. apply rcw_keeps_repos.
  - by destruct (entry_step_unresolved etl dm dry full gh e Hr) as (w & -> & _).
Qed.

Lemma repo_step_unreachable dry gh item f :
  get_repo gh f = Raised →
  get_repo (repo_step etl dm dry gh item).1 f = Raised
  ∧ Forall (λ ev, ∀ login p, ev ≠ CallGetPermission f login
                             ∧ ev ≠ CallAdd f login p)
           (repo_step etl dm dry gh item).2.
Proof.
  intros Hf. destruct item as [full es]. unfold repo_step.
  destruct (get_repo gh full) as [u|] eqn:Hfull.
  2: { cbn [fst snd]. split; [done|].
       repeat (apply Forall_cons; split); try (by apply Forall_nil);
         intros login p; by split. }
  assert (full ≠ f) as Hne by (intros ->; congruence).
  pose proof (for_each_Forall
    (λ ev, ∀ login p, ev ≠ CallGetPermission f login ∧ ev ≠ CallAdd f login p)
    (λ g, get_repo g f = Raised)
    (λ g e, entry_step etl dm dry full g e) es gh Hf) as Hloop.
  destruct (for_each _ es gh) as [gh' tr]. cbn [fst snd] in *.
  destruct Hloop as [Hf' Hev].
  { intros g e _ Hg. split; [by rewrite entry_step_keeps_repos|].
    eapply Forall_impl; [apply entry_step_events|].
    intros ev [[r ->]|(l & q & _ & [-> | ->])] login p; split; congruence. }
  split; [done|]. apply Forall_app. split; [|done].
  repeat (apply Forall_cons; split); try (by apply Forall_nil);
    intros login p; by split.
Qed.

End repos.

(** X17.  For a client whose writes do not change which repositories
    can be reached, a repository that cannot be reached is left alone:
    the run makes no read and no write about any of its collaborators. *)
Theorem unreachable_repo_untouched {G : Type} `{Github G}
        (gh : G) (org : string) (rows : list Row)
        (mapping_csv : option (list Row)) (default_missing : option string)
        (dry_run : bool) (f : string) :
  (∀ (g g' : G) full login gh_perm f',
     add_to_collaborators g full login gh_perm = Returned g' →
     get_repo g' f' = get_repo g f') →
  get_repo gh f = Raised →
  Forall (λ ev, ∀ login p, ev ≠ CallGetPermission f login
                           ∧ ev ≠ CallAdd f login p)
         (apply_permissions gh org rows mapping_csv default_missing dry_run).2.
Proof.
  intros Hkeep Hf. unfold apply_permissions.
  pose proof (for_each_Forall
    (λ ev, ∀ login p, ev ≠ CallGetPermission f login ∧ ev ≠ CallAdd f login p)
    (λ g, get_repo g f = Raised)
    (repo_step (load_email_to_login mapping_csv) default_missing dry_run)
    (sorted_items (group_by_repo org rows)) gh Hf) as Hloop.
  destruct (for_each _ _ gh) as [gh' tr]. cbn [fst snd] in *.
  apply Forall_cons. split; [intros login p; by split|].
  apply Hloop. intros g item _ Hg. by apply repo_step_unreachable.
Qed.

Lemma unreachable_repo_untouched_witness :
  Forall (λ ev, ∀ login p, ev ≠ CallGetPermission "acme/P2-R9" login
                           ∧ ev ≠ CallAdd "acme/P2-R9" login p)
         (apply_permissions Examples.acme "acme"
            [Examples.eff_row "P2" "R9" "a@x.com" "REPO_READ"]
            Examples.mapping_ab None false).2.
Proof.
  refine (unreachable_repo_untouched Examples.acme "acme"
            [Examples.eff_row "P2" "R9" "a@x.com" "REPO_READ"]
            Examples.mapping_ab None false "acme/P2-R9" _ eq_refl).
  intros g g' full login gh_perm f' Hadd. injection Hadd as <-. reflexivity.
Defined.

(** X18.  Outside dry-run a write is attempted whenever the read of the
    current level raises, returns nothing or an empty string, or returns
    "triage" or "maintain" while the row asks for "pull", "push" or
    "admin": such a collaborator is set to the level of the row. *)
Theorem reads_that_lead_to_a_write {G : Type} `{Github G}
        (gh : G) (full_name login gh_perm email : string) :
  get_collaborator_permission gh full_name login = Raised
  ∨ get_collaborator_permission gh full_name login = Returned None
  ∨ get_collaborator_permission gh full_name login = Returned (Some "")
  ∨ (∃ c, get_collaborator_permission gh full_name login = Returned (Some c)
          ∧ c ∈ ["triage"; "maintain"]
          ∧ gh_perm ∈ ["pull"; "push"; "admin"]) →
  CallAdd full_name login gh_perm
    ∈ (read_compare_write false full_name login gh_perm email gh).2
  ∧ (read_compare_write true full_name login gh_perm email gh)
    = (gh, [CallGetPermission full_name login;
            Log (would_add login full_name gh_perm email)]).
Proof.
  intros Hread.
  assert (needs_update gh full_name login gh_perm = true) as Hn.
  { unfold needs_update.
    destruct Hread as [-> | [-> | [-> | (c & -> & Hc & Hp)]]]; try done.
    repeat (apply elem_of_cons in Hc as [->|Hc]);
      [| |by apply elem_of_nil in Hc];
      repeat (apply elem_of_cons in Hp as [->|Hp]);
      try (by apply elem_of_nil in Hp); reflexivity. }
  unfold read_compare_write. rewrite Hn. cbn [negb]. split; [|done].
  destruct (add_to_collaborators gh full_name login gh_perm); cbn [snd];
    set_solver.
Qed.

Lemma reads_that_lead_to_a_write_witness :
  CallAdd "acme/P1-R1" "alice" "push"
    ∈ (read_compare_write false "acme/P1-R1" "alice" "push" "a@x.com"
         (mkMem ["acme/P1-R1"] {[("acme/P1-R1", "alice") := "maintain"]})).2.
Proof.
  refine (proj1 (reads_that_lead_to_a_write
            (mkMem ["acme/P1-R1"] {[("acme/P1-R1", "alice") := "maintain"]})
            "acme/P1-R1" "alice" "push" "a@x.com" _)).
  right. right. right. exists "maintain".
  split; [vm_compute; reflexivity|].
  split; apply (bool_decide_unpack _); vm_compute; exact I.
Defined.

(** ** bitbucket.py: paging *)

Import Bitbucket.

Section paging.
Context {V : Type}.
Variables (_get : string → gmap string Param → Response V)
          (path : string) (params : gmap string Param)
          (all : list V) (lim : nat).
Hypothesis lim_pos : (0 < lim)%nat.
Hypothesis serves : ∀ s,
  ∃ data,
    _get path (<["start" := PInt s]> (<["limit" := PInt lim]> params)) = Ok data
    ∧ values data = take lim (drop s all)
    ∧ (isLastPage data = true ↔ (length all ≤ s + lim)%nat)
    ∧ (nextPageStart data = None ∨ nextPageStart data = Some (s + lim)).

Lemma paginate_from_serves fuel s :
  (1 ≤ fuel)%nat → (length all ≤ s + fuel * lim)%nat →
  paginate_from fuel _get path params (PInt lim) (PInt s) = (drop s all, Done).
Proof.
  revert s. induction fuel as [|fuel IH]; intros s Hfuel Hlen; [lia|].
  destruct (serves s) as (data & Hget & Hvals & Hlast & Hnext).
  cbn [paginate_from]. rewrite Hget.
  destruct (isLastPage data) eqn:Hl.
  - rewrite Hvals. f_equal. apply take_ge. rewrite length_drop.
    pose proof (proj1 Hlast eq_refl). lia.
  - assert (¬ (length all ≤ s + lim)%nat) as Hmore.
    { intros Hle. apply Hlast in Hle. congruence. }
    assert (length (values data) = lim) as Hfull.
    { rewrite Hvals, length_take, length_drop. lia. }
    assert (match nextPageStart data with
            | None => advance (PInt s) (length (values data))
            | Some next_start => Some (PInt next_start)
            end = Some (PInt (s + lim))) as ->.
    { destruct Hnext as [-> | ->]; [|done]. simpl. by rewrite Hfull. }
    rewrite IH by nia. rewrite Hvals, <- drop_drop. by rewrite take_drop.
Qed.
End paging.

(** X19.  Against a server that serves a list in pages of [limit] items
    and marks the last one, the paging loop returns the whole list, in
    order, whether the server names the next start or leaves it to the
    loop to count the items received. *)
Theorem paginate_collects_all {V : Type}
        (_get : string → gmap string Param → Response V)
        (path : string) (params : gmap string Param)
        (all : list V) (lim fuel : nat) :
  params !! "limit" = Some (PInt lim) →
  params !! "start" = None →
  (0 < lim)%nat →
  (∀ s, ∃ data,
      _get path (<["start" := PInt s]> (<["limit" := PInt lim]> params)) = Ok data
      ∧ values data = take lim (drop s all)
      ∧ (isLastPage data = true ↔ (length all ≤ s + lim)%nat)
      ∧ (nextPageStart data = None ∨ nextPageStart data = Some (s + lim))) →
  (length all < fuel)%nat →
  _paginate fuel _get path (Some params) = (all, Done).
Proof.
  intros Hlim Hstart Hpos Hserves Hfuel. unfold _paginate. cbn [default id].
  simpl. rewrite Hlim, Hstart. simpl.
  rewrite (paginate_from_serves _get path params all lim Hpos Hserves fuel 0);
    [done|lia|nia].
Qed.

Lemma paginate_collects_all_witness :
  _paginate 6 (paged_server Examples.five) "/rest/api/1.0/projects"
            (Some Examples.limit_two)
  = (Examples.five, Done).
Proof.
  refine (paginate_collects_all (paged_server Examples.five)
            "/rest/api/1.0/projects" Examples.limit_two Examples.five 2 6
            eq_refl eq_refl _ _ _); [lia| |simpl; lia].
  intros s. eexists. split; [|split; [|split]].
  - unfold paged_server.
    rewrite lookup_insert_eq, lookup_insert_ne, lookup_insert_eq by done.
    reflexivity.
  - reflexivity.
  - cbn [isLastPage]. apply bool_decide_eq_true.
  - by right.
Defined.

(** X20.  If the server answers the first request with an empty page
    that is not the last and names no next start, the loop asks for the
    same page again and again: it yields nothing and never stops. *)
Theorem paginate_stuck_on_empty_page {V : Type}
        (_get : string → gmap string Param → Response V)
        (path : string) (params : gmap string Param) (data : Page V)
        (fuel : nat) :
  params !! "start" = None →
  _get path (<["start" := PInt 0]>
               (<["limit" := default (PInt 1000) (params !! "limit")]> params))
  = Ok data →
  values data = [] →
  isLastPage data = false →
  nextPageStart data = None →
  _paginate fuel _get path (Some params) = ([], OutOfFuel).
Proof.
  intros Hstart Hget Hvals Hlast Hnext. unfold _paginate. simpl.
  rewrite Hstart. simpl.
  induction fuel as [|fuel IH]; [done|].
  cbn [paginate_from]. rewrite Hget, Hlast, Hnext, Hvals. simpl.
  by rewrite IH.
Qed.

Lemma paginate_stuck_on_empty_page_witness :
  _paginate 1000 Examples.empty_pages "/rest/api/1.0/projects"
            (Some Examples.limit_two)
  = ([], OutOfFuel).
Proof.
  exact (paginate_stuck_on_empty_page Examples.empty_pages
           "/rest/api/1.0/projects" Examples.limit_two
           (mkPage [] false None) 1000
           eq_refl eq_refl eq_refl eq_refl eq_refl).
Defined.
